(** * Redirect checker: a shallow embedding of [checkUrl], the status
      classifier and the [POST] route, with the properties of the
      specification settled against them.

    Source files embedded here:
    - [utils/redirectUtils] ([checkUrl], [getStatusDescription],
      [getStatusCodeClass]),
    - [types/redirect] ([RedirectStep], [RedirectResult], [UrlCheckOptions]),
    - the API route ([POST]).

    Numbers are modelled as [Z] (status codes, counters, the redirect
    limit and the timeout, which the specification gives as integers),
    strings as [string], a value that may be [undefined] as [option],
    and a property of an options object as a [Property]: absent, or
    present with a value that may be [undefined]. *)

From Stdlib Require Import ZArith String List Bool Lia DecimalString.
Import ListNotations.

Open Scope string_scope.
Open Scope Z_scope.

(* ------------------------------------------------------------------ *)
(** ** JavaScript helpers *)

(** Template-literal rendering of an integer, [`${n}`]. *)
Definition string_of_Z (z : Z) : string :=
  NilZero.string_of_int (Z.to_int z).

(** Truthiness of a string: only the empty string is falsy. *)
Definition truthy_string (s : string) : bool :=
  match s with
  | EmptyString => false
  | String _ _ => true
  end.

(** Truthiness of an optional string ([undefined] is falsy). *)
Definition truthy (o : option string) : bool :=
  match o with
  | Some s => truthy_string s
  | None => false
  end.

(** [a || d] where [a] is a possibly undefined string. *)
Definition or_string (a : option string) (d : string) : string :=
  if truthy a then match a with Some s => s | None => d end else d.

(** [a || d] on numbers: [0] is the falsy integer. *)
Definition or_number (a d : Z) : Z :=
  if a =? 0 then d else a.

(** Property lookup [obj[key]] in an object used as a map. *)
Fixpoint lookup {K V : Type} (eqb : K -> K -> bool) (k : K)
         (obj : list (K * V)) : option V :=
  match obj with
  | [] => None
  | (k', v) :: rest => if eqb k k' then Some v else lookup eqb k rest
  end.

(* ------------------------------------------------------------------ *)
(** ** The status classifier *)

Module Classifier.

(** The literal table of [getStatusDescription]. *)
Definition statusMap : list (Z * string) :=
  [ (200, "OK"); (201, "Created"); (202, "Accepted"); (204, "No Content");
    (300, "Multiple Choices"); (301, "Moved Permanently"); (302, "Found");
    (303, "See Other"); (304, "Not Modified");
    (307, "Temporary Redirect"); (308, "Permanent Redirect");
    (400, "Bad Request"); (401, "Unauthorized"); (403, "Forbidden");
    (404, "Not Found"); (405, "Method Not Allowed");
    (408, "Request Timeout"); (429, "Too Many Requests");
    (500, "Internal Server Error"); (501, "Not Implemented");
    (502, "Bad Gateway"); (503, "Service Unavailable");
    (504, "Gateway Timeout") ].

(** [return statusMap[statusCode] || 'Unknown Status'] *)
Definition getStatusDescription (statusCode : Z) : string :=
  or_string (lookup Z.eqb statusCode statusMap) "Unknown Status".

(** The chain of comparisons of [getStatusCodeClass]; the last branch
    [statusCode >= 500] has no upper bound. *)
Definition getStatusCodeClass (statusCode : Z) : string :=
  if (200 <=? statusCode) && (statusCode <? 300) then "status-2xx"
  else if (300 <=? statusCode) && (statusCode <? 400) then "status-3xx"
  else if (400 <=? statusCode) && (statusCode <? 500) then "status-4xx"
  else if 500 <=? statusCode then "status-5xx"
  else EmptyString.

(** The codes the specification lists as well known:
    200, 201, 202, 204, 300-308, 400, 401, 403, 404, 405, 408, 429,
    500-504. *)
Definition spec_well_known_codes : list Z :=
  [200; 201; 202; 204;
   300; 301; 302; 303; 304; 305; 306; 307; 308;
   400; 401; 403; 404; 405; 408; 429;
   500; 501; 502; 503; 504].

(** The keys of the source's table. *)
Definition table_codes : list Z := map fst statusMap.

(** The specification's list without the two codes the table lacks. *)
Definition described_codes : list Z :=
  [200; 201; 202; 204;
   300; 301; 302; 303; 304; 307; 308;
   400; 401; 403; 404; 405; 408; 429;
   500; 501; 502; 503; 504].

(** The standard reason phrase of a status code (RFC 9110), for the
    codes the specification lists; this follows the specification's
    words and is compared with the table of the source. *)
Definition standard_reason_phrase (code : Z) : option string :=
  lookup Z.eqb code
    [ (200, "OK"); (201, "Created"); (202, "Accepted"); (204, "No Content");
      (300, "Multiple Choices"); (301, "Moved Permanently"); (302, "Found");
      (303, "See Other"); (304, "Not Modified"); (305, "Use Proxy");
      (306, "(Unused)");
      (307, "Temporary Redirect"); (308, "Permanent Redirect");
      (400, "Bad Request"); (401, "Unauthorized"); (403, "Forbidden");
      (404, "Not Found"); (405, "Method Not Allowed");
      (408, "Request Timeout"); (429, "Too Many Requests");
      (500, "Internal Server Error"); (501, "Not Implemented");
      (502, "Bad Gateway"); (503, "Service Unavailable");
      (504, "Gateway Timeout") ].

End Classifier.

(* ------------------------------------------------------------------ *)
(** ** The data model of [types/redirect] and of the HTTP client *)

Module Tracer.

(** A property of an options object, as an object spread sees it: the
    object lacks it, or has it with a value. Every property of
    [UrlCheckOptions] is optional ([maxRedirects?: number]), so the value
    of a property the object has may be [undefined], as in
    [{ maxRedirects: undefined }]. *)
Inductive Property (A : Type) : Type :=
  | Absent
  | Own (value : option A).

Arguments Absent {A}.
Arguments Own {A} value.

(** Reading a property, [obj.key]: [undefined] when the object lacks it. *)
Definition read {A : Type} (p : Property A) : option A :=
  match p with
  | Absent => None
  | Own value => value
  end.

(** [UrlCheckOptions]: every property is optional. *)
Record UrlCheckOptions : Type := Object {
  own_userAgent : Property string;
  own_timeout : Property Z;
  own_followRedirects : Property bool;
  own_maxRedirects : Property Z
}.

(** [options.userAgent], [options.timeout], [options.followRedirects],
    [options.maxRedirects]. *)
Definition userAgent (o : UrlCheckOptions) : option string :=
  read (own_userAgent o).

Definition timeout (o : UrlCheckOptions) : option Z :=
  read (own_timeout o).

Definition followRedirects (o : UrlCheckOptions) : option bool :=
  read (own_followRedirects o).

Definition maxRedirects (o : UrlCheckOptions) : option Z :=
  read (own_maxRedirects o).

(** A property of an object literal that writes the property out with
    its value, or leaves it out. *)
Definition given {A : Type} (v : option A) : Property A :=
  match v with
  | Some a => Own (Some a)
  | None => Absent
  end.

(** The object literal with the properties that are given a value, as
    [{ maxRedirects: 3 }]. *)
Definition mkOptions (ua : option string) (t : option Z) (f : option bool)
           (m : option Z) : UrlCheckOptions :=
  Object (given ua) (given t) (given f) (given m).

(** The empty object [{}], the default value of the [options] argument. *)
Definition noOptions : UrlCheckOptions := mkOptions None None None None.

Definition defaultOptions : UrlCheckOptions :=
  mkOptions
    (Some "Mozilla/5.0 (Windows NT 10.0; Win64; x64) AppleWebKit/537.36 (KHTML, like Gecko) Chrome/97.0.4692.71 Safari/537.36")
    (Some 10000)
    (Some true)
    (Some 20).

(** One property of an object spread [{ ...d, ...o }]: the property of
    [o] wins when [o] has it, also when its value is [undefined]. *)
Definition spread {A : Type} (d o : Property A) : Property A :=
  match o with
  | Own value => Own value
  | Absent => d
  end.

(** [{ ...defaultOptions, ...options }] *)
Definition mergeOptions (d o : UrlCheckOptions) : UrlCheckOptions :=
  Object (spread (own_userAgent d) (own_userAgent o))
         (spread (own_timeout d) (own_timeout o))
         (spread (own_followRedirects d) (own_followRedirects o))
         (spread (own_maxRedirects d) (own_maxRedirects o)).

(** A response of the HTTP client: the parts [checkUrl] reads. *)
Record Response : Type := mkResponse {
  status : Z;
  res_statusText : string;
  res_headers : list (string * string)
}.

(** [response.headers.location] *)
Definition res_location (r : Response) : option string :=
  lookup String.eqb "location" (res_headers r).

(** The request [axios.get(url, { headers: { 'User-Agent': ... },
    maxRedirects: 0, validateStatus: () => true, timeout })]; the two
    constant settings are the same in every request. *)
Record Request : Type := mkRequest {
  req_url : string;
  req_userAgent : option string;
  req_timeout : option Z
}.

(** The request that [checkUrl] issues for [u] under the merged options. *)
Definition request_to (opts : UrlCheckOptions) (u : string) : Request :=
  mkRequest u (userAgent opts) (timeout opts).

(** A value that can be thrown and caught by the [catch] clauses: an
    axios error (with its [config.url] and its [response], both
    optional), another [Error] instance, or a value that is no
    [Error]. *)
Inductive Thrown : Type :=
  | AxiosError (message : string) (config_url : option string)
               (response : option Response)
  | JsError (message : string)
  | NonError.

(** [RedirectStep]; [checkUrl] never assigns [timing] and
    [performanceRating], which are left out. *)
Record RedirectStep : Type := mkStep {
  url : string;
  statusCode : Z;
  statusText : string;
  headers : option (list (string * string));
  location : option string
}.

(** [RedirectResult]; [checkUrl] never assigns [recommendations]. *)
Record RedirectResult : Type := mkResult {
  initialUrl : string;
  finalUrl : string;
  steps : list RedirectStep;
  redirectCount : Z;
  totalTime : option Z;
  error : option string
}.

(** *** The effects: a mutable [result], the network and the clock *)

(** The state threaded through a call: the [result] object that the
    [try] block and the [catch] block both mutate, the requests issued
    so far (oldest first) and the number of clock readings so far. *)
Record State : Type := mkState {
  result : RedirectResult;
  requests : list Request;
  clock_reads : nat
}.

(** What a computation ends in: a value, a thrown value, or no end for
    the [fuel] given to a loop. *)
Inductive Outcome (A : Type) : Type :=
  | Ret (a : A)
  | Throw (e : Thrown)
  | Diverge.

Arguments Ret {A} a.
Arguments Throw {A} e.
Arguments Diverge {A}.

Definition M (A : Type) : Type := State -> Outcome A * State.

Definition ret {A : Type} (a : A) : M A := fun s => (Ret a, s).

Definition throw {A : Type} (e : Thrown) : M A := fun s => (Throw e, s).

Definition bind {A B : Type} (m : M A) (k : A -> M B) : M B :=
  fun s =>
    match m s with
    | (Ret a, s') => k a s'
    | (Throw e, s') => (Throw e, s')
    | (Diverge, s') => (Diverge, s')
    end.

(** [try { body } catch (error) { handler }]: the handler runs in the
    state the body left behind. *)
Definition try_catch {A : Type} (body : M A) (handler : Thrown -> M A) : M A :=
  fun s =>
    match body s with
    | (Throw e, s') => handler e s'
    | other => other
    end.

Declare Scope js_scope.
Delimit Scope js_scope with js.
Notation "x <- m ;; k" := (bind m (fun x => k))
  (at level 100, m at next level, right associativity) : js_scope.
Notation "m ;;; k" := (bind m (fun _ => k))
  (at level 100, right associativity) : js_scope.
Open Scope js_scope.

Definition get_result : M RedirectResult := fun s => (Ret (result s), s).

(** The state after an assignment to [result]. *)
Definition with_result (f : RedirectResult -> RedirectResult) (s : State) : State :=
  mkState (f (result s)) (requests s) (clock_reads s).

(** The state after a request was issued. *)
Definition issued (rq : Request) (s : State) : State :=
  mkState (result s) (requests s ++ [rq])%list (clock_reads s).

Definition modify_result (f : RedirectResult -> RedirectResult) : M unit :=
  fun s => (Ret tt, with_result f s).

Definition add_step (step : RedirectStep) (r : RedirectResult) : RedirectResult :=
  mkResult (initialUrl r) (finalUrl r) (steps r ++ [step])%list
           (redirectCount r) (totalTime r) (error r).

(** [result.steps.push(step)] *)
Definition push_step (step : RedirectStep) : M unit :=
  modify_result (add_step step).

Definition set_finalUrl (u : string) : M unit :=
  modify_result (fun r =>
    mkResult (initialUrl r) u (steps r) (redirectCount r) (totalTime r) (error r)).

Definition set_redirectCount (n : Z) : M unit :=
  modify_result (fun r =>
    mkResult (initialUrl r) (finalUrl r) (steps r) n (totalTime r) (error r)).

Definition set_totalTime (t : Z) : M unit :=
  modify_result (fun r =>
    mkResult (initialUrl r) (finalUrl r) (steps r) (redirectCount r) (Some t) (error r)).

Definition with_error (msg : string) (r : RedirectResult) : RedirectResult :=
  mkResult (initialUrl r) (finalUrl r) (steps r) (redirectCount r)
           (totalTime r) (Some msg).

(** [result.error = msg] *)
Definition set_error (msg : string) : M unit :=
  modify_result (with_error msg).

(** [const result = { initialUrl: url, finalUrl: url, steps: [],
    redirectCount: 0, error: undefined }] *)
Definition new_result (u : string) : M unit :=
  modify_result (fun _ => mkResult u u [] 0 None None).

(** [steps[steps.length - 1]], [None] for the empty array. *)
Definition last_step (l : list RedirectStep) : option RedirectStep :=
  List.last (map Some l) None.

(** The local variables of the redirect loop. *)
Record LoopVars : Type := mkLoop {
  currentUrl : string;
  loop_redirectCount : Z;
  loop_maxRedirects : Z
}.

(** How one run of the loop body ends. *)
Inductive Ctl : Type := Break | Continue.

(** [currentUrl = href; redirectCount++; maxRedirects--] *)
Definition advance (href : string) (v : LoopVars) : LoopVars :=
  mkLoop href (loop_redirectCount v + 1) (loop_maxRedirects v - 1).

(** [new URL(undefined, base)] would read the text of [undefined]; the
    loop only resolves a location that is present. *)
Definition location_text (o : option string) : string :=
  match o with
  | Some l => l
  | None => "undefined"
  end.

(** [`${mergedOptions.maxRedirects}`] *)
Definition render_limit (o : option Z) : string :=
  match o with
  | Some n => string_of_Z n
  | None => "undefined"
  end.

(** [`Maximum number of redirects (${mergedOptions.maxRedirects}) reached`] *)
Definition limit_message (opts : UrlCheckOptions) : string :=
  "Maximum number of redirects (" ++ render_limit (maxRedirects opts) ++ ") reached".

(** [redirectCount >= mergedOptions.maxRedirects!]: a comparison with
    [undefined] is false. *)
Definition count_reaches (count : Z) (limit : option Z) : bool :=
  match limit with
  | Some n => n <=? count
  | None => false
  end.

(** [!mergedOptions.followRedirects] *)
Definition not_following (o : option bool) : bool :=
  match o with
  | Some b => negb b
  | None => true
  end.

(** [mergedOptions.maxRedirects || 20] *)
Definition initial_maxRedirects (o : option Z) : Z :=
  match o with
  | Some n => or_number n 20
  | None => 20
  end.

(** [!url || (!url.startsWith('http://') && !url.startsWith('https://'))] *)
Definition invalid_url (u : string) : bool :=
  negb (truthy_string u)
  || (negb (String.prefix "http://" u) && negb (String.prefix "https://" u)).

(** The step recorded for a response received at [u]. *)
Definition step_of_response (u : string) (r : Response) : RedirectStep :=
  mkStep u (status r) (res_statusText r) (Some (res_headers r)) (res_location r).

(** The step recorded in the [catch] block from [error.response]: it
    has no [location]. *)
Definition step_of_error_response (u : string) (r : Response) : RedirectStep :=
  mkStep u (status r) (res_statusText r) (Some (res_headers r)) None.

(** [response.status < 300 || response.status >= 400
     || !response.headers.location] *)
Definition reached_the_end (r : Response) : bool :=
  (status r <? 300) || (400 <=? status r) || negb (truthy (res_location r)).

(** The same test on the step recorded for a response. *)
Definition terminal_step (st : RedirectStep) : bool :=
  (statusCode st <? 300) || (400 <=? statusCode st) || negb (truthy (location st)).

(** [result.steps.some(s => s.url === currentUrl)] *)
Definition visited (l : list RedirectStep) (u : string) : bool :=
  existsb (fun s => String.eqb (url s) u) l.

(** [error.message], or the fixed text for a thrown value that is no
    [Error]. *)
Definition thrown_message (e : Thrown) : string :=
  match e with
  | AxiosError msg _ _ => msg
  | JsError msg => msg
  | NonError => "An unknown error occurred"
  end.

(** The step the [catch] block adds: one for an axios error that
    carries a response, at [error.config?.url || url]. *)
Definition thrown_steps (e : Thrown) (u : string) : list RedirectStep :=
  match e with
  | AxiosError _ cfg (Some r) => [step_of_error_response (or_string cfg u) r]
  | _ => []
  end.

Section World.

(** The network: the outcome of a request, which may depend on the
    requests issued before it. *)
Variable net : list Request -> Request -> Response + Thrown.

(** [new URL(location, base).href]; [None] when the constructor throws
    its [TypeError]. *)
Variable URL_href : string -> string -> option string.

(** [Date.now()]: the reading may depend on how many readings and which
    requests came before. *)
Variable clock : nat -> list Request -> Z.

Definition Date_now : M Z :=
  fun s =>
    (Ret (clock (clock_reads s) (requests s)),
     mkState (result s) (requests s) (S (clock_reads s))).

(** [await axios.get(...)]: the request is issued, then the response is
    returned or the fault is thrown. *)
Definition axios_get (rq : Request) : M Response :=
  fun s =>
    match net (requests s) rq with
    | inl r => (Ret r, issued rq s)
    | inr e => (Throw e, issued rq s)
    end.

Definition new_URL (loc base : string) : M string :=
  match URL_href loc base with
  | Some href => ret href
  | None => throw (JsError "Invalid URL")
  end.

(** One run of the body of [while (maxRedirects > 0) { ... }]. *)
Definition loop_body (opts : UrlCheckOptions) (v : LoopVars) : M (Ctl * LoopVars) :=
  response <- axios_get (request_to opts (currentUrl v)) ;;
  push_step (step_of_response (currentUrl v) response) ;;;
  if reached_the_end response then ret (Break, v)
  else
    href <- new_URL (location_text (res_location response)) (currentUrl v) ;;
    let v' := advance href v in
    r <- get_result ;;
    if visited (steps r) href
    then (set_error "Circular redirect detected" ;;; ret (Break, v'))
    else ret (Continue, v').

(** The loop, with [fuel] runs of its body at most. *)
Fixpoint while_loop (fuel : nat) (opts : UrlCheckOptions) (v : LoopVars) : M LoopVars :=
  if 0 <? loop_maxRedirects v then
    match fuel with
    | O => fun s => (Diverge, s)
    | S fuel' =>
        cv <- loop_body opts v ;;
        match fst cv with
        | Break => ret (snd cv)
        | Continue => while_loop fuel' opts (snd cv)
        end
    end
  else ret v.

(** The body of the [try] block; [opts] are the merged options. *)
Definition checkUrl_try (u : string) (opts : UrlCheckOptions) (startTime : Z)
  : M RedirectResult :=
  if invalid_url u
  then throw (JsError "Invalid URL. Please include the protocol (http:// or https://)")
  else if not_following (followRedirects opts) then
    response <- axios_get (request_to opts u) ;;
    push_step (step_of_response u response) ;;;
    set_finalUrl u ;;;
    now <- Date_now ;;
    set_totalTime (now - startTime) ;;;
    get_result
  else
    let v0 := mkLoop u 0 (initial_maxRedirects (maxRedirects opts)) in
    v <- while_loop (Z.to_nat (loop_maxRedirects v0)) opts v0 ;;
    (if (loop_maxRedirects v =? 0)
        && count_reaches (loop_redirectCount v) (maxRedirects opts)
     then set_error (limit_message opts)
     else ret tt) ;;;
    r <- get_result ;;
    match last_step (steps r) with
    | None => throw (JsError "Cannot read properties of undefined (reading 'url')")
    | Some st =>
        set_finalUrl (url st) ;;;
        set_redirectCount (loop_redirectCount v) ;;;
        now <- Date_now ;;
        set_totalTime (now - startTime) ;;;
        get_result
    end.

(** The [catch] block. *)
Definition checkUrl_catch (u : string) (startTime : Z) (e : Thrown)
  : M RedirectResult :=
  set_error (thrown_message e) ;;;
  (match e with
   | AxiosError _ cfg (Some r) =>
       push_step (step_of_error_response (or_string cfg u) r)
   | _ => ret tt
   end) ;;;
  r <- get_result ;;
  set_finalUrl (match last_step (steps r) with
                | Some st => url st
                | None => u
                end) ;;;
  set_redirectCount
    (if 0 <? Z.of_nat (length (steps r)) - 1
     then Z.of_nat (length (steps r)) - 1 else 0) ;;;
  now <- Date_now ;;
  set_totalTime (now - startTime) ;;;
  get_result.

(** The response [r], received at [base], is a redirect that the loop
    follows to [target]: a 3xx status and a non-empty [Location] that
    resolves to [target]. *)
Definition redirects_to (r : Response) (base target : string) : Prop :=
  300 <= status r < 400
  /\ exists loc, res_location r = Some loc
               /\ truthy_string loc = true
               /\ URL_href loc base = Some target.

(** The requests for the first [n] URLs of a chain, and the steps
    recorded for them. *)
Definition chain_requests (opts : UrlCheckOptions) (chain : nat -> string)
           (n : nat) : list Request :=
  map (fun i => request_to opts (chain i)) (seq 0 n).

Definition chain_steps (chain : nat -> string) (resp : nat -> Response)
           (n : nat) : list RedirectStep :=
  map (fun i => step_of_response (chain i) (resp i)) (seq 0 n).

(** Starting after the requests [log], each of the first [n] URLs of
    [chain] answers with [resp i], a redirect to the next URL of the
    chain, which is none of the URLs before it. *)
Definition follows_chain (opts : UrlCheckOptions) (log : list Request)
           (chain : nat -> string) (resp : nat -> Response) (n : nat) : Prop :=
  forall i, (i < n)%nat ->
    net (log ++ chain_requests opts chain i)%list (request_to opts (chain i))
    = inl (resp i)
    /\ redirects_to (resp i) (chain i) (chain (S i))
    /\ (forall j, (j <= i)%nat -> chain j <> chain (S i)).

(** The reading of [startTime], and the state in which the [try] block
    starts: a fresh [result], one clock reading made. *)
Definition start_time (s : State) : Z := clock (clock_reads s) (requests s).

Definition started (u : string) (s : State) : State :=
  mkState (mkResult u u [] 0 None None) (requests s) (S (clock_reads s)).

(** [checkUrl(url, options)]. *)
Definition checkUrl (u : string) (options : UrlCheckOptions) : M RedirectResult :=
  startTime <- Date_now ;;
  let mergedOptions := mergeOptions defaultOptions options in
  new_result u ;;;
  try_catch (checkUrl_try u mergedOptions startTime)
            (checkUrl_catch u startTime).

End World.

End Tracer.

(* ------------------------------------------------------------------ *)
(** ** The API route *)

Module Route.

Import Tracer.

(** The request body after [body as { url: string; options?: ... }]. *)
Record Body : Type := mkBody {
  body_url : option string;
  body_options : option UrlCheckOptions
}.

(** What the route serialises: [{ error: ... }] or a [RedirectResult]. *)
Inductive Payload : Type :=
  | ErrorPayload (error : string)
  | ResultPayload (r : RedirectResult).

Record NextResponse : Type := mkNextResponse {
  http_status : Z;
  payload : Payload
}.

(** [NextResponse.json(body, init)]: the status is 200 when [init]
    gives none. *)
Definition NextResponse_json (body : Payload) (init : option Z) : NextResponse :=
  mkNextResponse (match init with Some st => st | None => 200 end) body.

(** [await request.json()]: the parsed body, or what the parser throws. *)
Definition request_json (request : Body + Thrown) : M Body :=
  match request with
  | inl b => ret b
  | inr e => throw e
  end.

(** The options handed to [checkUrl]: its default [{}] when the body
    has none. *)
Definition options_of (body : Body) : UrlCheckOptions :=
  match body_options body with
  | Some o => o
  | None => noOptions
  end.

Section World.

Variable net : list Request -> Request -> Response + Thrown.
Variable URL_href : string -> string -> option string.
Variable clock : nat -> list Request -> Z.

(** [POST(request)]. *)
Definition POST (request : Body + Thrown) : M NextResponse :=
  try_catch
    (body <- request_json request ;;
     match body_url body with
     | Some u =>
         if truthy_string u then
           r <- checkUrl net URL_href clock u (options_of body) ;;
           ret (NextResponse_json (ResultPayload r) None)
         else ret (NextResponse_json (ErrorPayload "URL is required") (Some 400))
     | None => ret (NextResponse_json (ErrorPayload "URL is required") (Some 400))
     end)
    (fun e => ret (NextResponse_json (ErrorPayload (thrown_message e)) (Some 500))).

End World.

End Route.

(* ------------------------------------------------------------------ *)
(** ** Concrete worlds, used to run the definitions *)

Module Examples.

Import Tracer.

Definition urlA : string := "http://a.example/".
Definition urlB : string := "http://b.example/".

(** Every [Location] of these worlds is an absolute URL, which resolves
    to itself. *)
Definition href_absolute (loc base : string) : option string := Some loc.

Definition clock_ticks (n : nat) (log : list Request) : Z := Z.of_nat n.

Definition found (loc : string) : Response :=
  mkResponse 302 "Found" [("location", loc)].

Definition state0 : State := mkState (mkResult EmptyString EmptyString [] 0 None None) [] 0.

(** A answers with a redirect to B, B with a redirect to A. *)
Definition net_circular (log : list Request) (rq : Request) : Response + Thrown :=
  if String.eqb (req_url rq) urlA then inl (found urlB) else inl (found urlA).

(** Every URL answers with a redirect to a longer, new URL. *)
Definition net_fresh (log : list Request) (rq : Request) : Response + Thrown :=
  inl (found (req_url rq ++ "x")).

(** The i-th URL of the chain of [net_fresh] that starts at A. *)
Fixpoint fresh_chain (i : nat) : string :=
  match i with
  | O => urlA
  | S j => fresh_chain j ++ "x"
  end.

(** A answers with a redirect to B; the request to B times out, with no
    response. *)
Definition net_fault (log : list Request) (rq : Request) : Response + Thrown :=
  if String.eqb (req_url rq) urlA then inl (found urlB)
  else inr (AxiosError "timeout of 10000ms exceeded" (Some (req_url rq)) None).

(** Every URL answers 302 with a [Location]. *)
Definition net_found (log : list Request) (rq : Request) : Response + Thrown :=
  inl (found urlB).


End Examples.

(* ------------------------------------------------------------------ *)
(** ** The shape of a recorded trace *)

Module TraceShape.

Import Tracer.

(** The step is a redirect the loop follows: not a terminal response. *)
Definition followed (st : RedirectStep) : bool := negb (terminal_step st).

(** Every step but the last is a followed redirect. *)
Fixpoint redirects_before_last (l : list RedirectStep) : bool :=
  match l with
  | st :: (_ :: _) as rest => followed st && redirects_before_last rest
  | _ => true
  end.

Section World.

Variable net : list Request -> Request -> Response + Thrown.
Variable URL_href : string -> string -> option string.

(** The [Location] of [st], resolved against the URL of [st], is [u]. *)
Definition leads_to (st : RedirectStep) (u : string) : bool :=
  match URL_href (location_text (location st)) (url st) with
  | Some href => String.eqb href u
  | None => false
  end.

(** Each step's [Location] leads to the URL of the step after it. *)
Fixpoint linked (l : list RedirectStep) : bool :=
  match l with
  | st :: (next :: _) as rest => leads_to st (url next) && linked rest
  | _ => true
  end.

(** The first step, if any, is for [u]. *)
Definition starts_at (u : string) (l : list RedirectStep) : Prop :=
  forall st, hd_error l = Some st -> url st = u.

(** No fault of the network carries a response: the client accepts
    every status ([validateStatus: () => true]), so a fault is a failure
    of the transport. *)
Definition faults_without_response : Prop :=
  forall log rq e, net log rq = inr e -> forall u, thrown_steps e u = [].

(** The requests issued for the steps [l] under the options [opts]. *)
Definition requests_for (opts : UrlCheckOptions) (l : list RedirectStep)
  : list Request :=
  map (fun st => request_to opts (url st)) l.

(** What holds of the steps [l] recorded for a trace of [u]: they start
    at [u], each leads to the next, and no URL occurs twice. *)
Record chained (u : string) (l : list RedirectStep) : Prop := mkChained {
  chained_starts : starts_at u l;
  chained_linked : linked l = true;
  chained_distinct : NoDup (map url l)
}.

(** What holds whenever the loop tests its condition, in a trace of [u]
    that started after the requests [log]: every step so far was a
    followed redirect, the last one leads to [currentUrl], which was not
    visited, and the counter is the number of steps. *)
Record loop_invariant (u : string) (opts : UrlCheckOptions)
       (log : list Request) (v : LoopVars) (s : State) : Prop := mkInvariant {
  inv_chained : chained u (steps (result s));
  inv_followed : forallb followed (steps (result s)) = true;
  inv_current :
    match last_step (steps (result s)) with
    | Some last => leads_to last (currentUrl v) = true
    | None => currentUrl v = u
    end;
  inv_fresh : visited (steps (result s)) (currentUrl v) = false;
  inv_count : Z.of_nat (length (steps (result s))) = loop_redirectCount v;
  inv_requests : requests s = (log ++ requests_for opts (steps (result s)))%list
}.

(** The three ways the loop returns: on a terminal response, on a
    repeated URL, or with [maxRedirects] used up. *)
Inductive loop_end (s : State) (v' : LoopVars) (s' : State) : Prop :=
  | end_terminal (last : RedirectStep) :
      last_step (steps (result s')) = Some last ->
      terminal_step last = true ->
      Z.of_nat (length (steps (result s'))) = loop_redirectCount v' + 1 ->
      0 < loop_maxRedirects v' ->
      error (result s') = error (result s) ->
      loop_end s v' s'
  | end_circular :
      error (result s') = Some "Circular redirect detected" ->
      Z.of_nat (length (steps (result s'))) = loop_redirectCount v' ->
      forallb followed (steps (result s')) = true ->
      steps (result s') <> [] ->
      loop_end s v' s'
  | end_exhausted :
      loop_maxRedirects v' <= 0 ->
      Z.of_nat (length (steps (result s'))) = loop_redirectCount v' ->
      forallb followed (steps (result s')) = true ->
      error (result s') = error (result s) ->
      loop_end s v' s'.

(** The two ways the loop throws: a fault of the network on a request
    for which no step is recorded, or a [Location] that does not
    resolve, after its step was recorded. *)
Inductive loop_fault (opts : UrlCheckOptions) (log : list Request)
          (e : Thrown) (s' : State) : Prop :=
  | fault_network (before : list Request) (rq : Request) :
      net before rq = inr e ->
      requests s'
      = (log ++ requests_for opts (steps (result s')) ++ [rq])%list ->
      req_userAgent rq = userAgent opts ->
      req_timeout rq = timeout opts ->
      loop_fault opts log e s'
  | fault_location :
      e = JsError "Invalid URL" ->
      requests s' = (log ++ requests_for opts (steps (result s')))%list ->
      steps (result s') <> [] ->
      loop_fault opts log e s'.

(** What holds of every result [res] of [checkUrl] for [u], started in
    the state [s] and ended in [s']: [l] are the steps recorded by the
    [try] block, [extra] the step the [catch] block may add, [failed]
    the request that was issued and got no step. *)
Record trace_facts (u : string) (opts : UrlCheckOptions) (s : State)
       (res : RedirectResult) (s' : State) : Prop := mkTraceFacts {
  trace_initialUrl : initialUrl res = u;
  trace_finalUrl :
    finalUrl res = match last_step (steps res) with
                   | Some st => url st
                   | None => u
                   end;
  trace_before_last : redirects_before_last (steps res) = true;
  trace_count :
    Z.of_nat (length (steps res)) - 1 <= redirectCount res
    <= Z.of_nat (length (steps res));
  trace_count_clean :
    error res = None ->
    steps res <> []
    /\ (redirectCount res = Z.of_nat (length (steps res)) - 1
        \/ (maxRedirects opts = None
            /\ redirectCount res = 20
            /\ length (steps res) = 20%nat
            /\ forallb followed (steps res) = true));
  trace_steps :
    exists l extra failed,
      steps res = (l ++ extra)%list
      /\ chained u l
      /\ (length extra <= 1)%nat
      /\ (faults_without_response -> extra = [])
      /\ requests s' = (requests s ++ requests_for opts l ++ failed)%list
      /\ (length failed <= 1)%nat
      /\ (error res = None -> failed = [])
      /\ Forall (fun rq => req_userAgent rq = userAgent opts
                           /\ req_timeout rq = timeout opts) failed
}.

End World.

End TraceShape.

(* ------------------------------------------------------------------ *)
(** ** More concrete worlds *)

Module MoreExamples.

Import Tracer Examples.

Definition ok : Response := mkResponse 200 "OK" [("content-type", "text/html")].

Definition not_found : Response := mkResponse 404 "Not Found" [].

(** A answers with a redirect to B, every other URL with 200. *)
Definition net_moved (log : list Request) (rq : Request) : Response + Thrown :=
  if String.eqb (req_url rq) urlA then inl (found urlB) else inl ok.

(** The two URLs of the traces of [net_moved] and [net_circular]. *)
Definition chain_ab (i : nat) : string :=
  match i with
  | O => urlA
  | S _ => urlB
  end.

(** The responses of [net_moved] along [chain_ab]. *)
Definition resp_moved (i : nat) : Response :=
  match i with
  | O => found urlB
  | S _ => ok
  end.

(** The responses of [net_circular] along [chain_ab]. *)
Definition resp_circular (i : nat) : Response :=
  match i with
  | O => found urlB
  | S _ => found urlA
  end.

(** The trace of A in [net_moved], with the default options. *)
Definition moved_outcome : Outcome RedirectResult * State :=
  Eval vm_compute in
    checkUrl net_moved href_absolute clock_ticks urlA noOptions state0.

Definition moved_result : RedirectResult :=
  Eval vm_compute in
    match fst moved_outcome with
    | Ret r => r
    | _ => mkResult EmptyString EmptyString [] 0 None None
    end.

Definition moved_state : State := Eval vm_compute in snd moved_outcome.

End MoreExamples.

(* ------------------------------------------------------------------ *)
(** ** The views: what the components compute from a result *)

(** [ResultsView]: the banner and the SEO impact score. *)
Module ResultsView.

Import Tracer.

(** [result.steps[result.steps.length - 1]?.statusCode || 0] *)
Definition finalStatus (r : RedirectResult) : Z :=
  match last_step (steps r) with
  | Some st => or_number (statusCode st) 0
  | None => 0
  end.

(** [result.steps.some(step => step.statusCode >= 400)] *)
Definition hasErrorStatus (r : RedirectResult) : bool :=
  existsb (fun st => 400 <=? statusCode st) (steps r).

(** [getBannerType()], for the [result] of the component. *)
Definition getBannerType (result : option RedirectResult) : string :=
  match result with
  | None => "info"
  | Some r =>
      if truthy (error r) then "error"
      else if hasErrorStatus r || (400 <=? finalStatus r) then "error"
      else if 300 <=? finalStatus r then "warning"
      else if (1 <? Z.of_nat (length (steps r))) then "info"
      else "success"
  end.

(** The part of [getBannerMessage()] after the test of [result.error]. *)
Definition statusMessage (r : RedirectResult) : string :=
  let redirectCount := Z.of_nat (length (steps r)) - 1 in
  let finalStatus := finalStatus r in
  if hasErrorStatus r || (400 <=? finalStatus) then
    if (400 <=? finalStatus) && (finalStatus <? 500)
    then "Client error encountered - check URL validity"
    else if 500 <=? finalStatus
    then "Server error encountered - the destination server may be experiencing issues"
    else "Error encountered during redirect chain"
  else if (redirectCount =? 0) && (200 <=? finalStatus) && (finalStatus <? 300)
  then "Direct connection successful with no redirects"
  else if (0 <? redirectCount) && (200 <=? finalStatus) && (finalStatus <? 300)
  then "Successfully followed " ++ string_of_Z redirectCount ++ " redirect"
       ++ (if 1 <? redirectCount then "s" else EmptyString)
  else if (300 <=? finalStatus) && (finalStatus <? 400)
  then "Redirect chain incomplete - ended with a redirect status"
  else "Request completed".

(** [getBannerMessage()], for the [result] of the component. *)
Definition getBannerMessage (result : option RedirectResult) : string :=
  match result with
  | None => "Processing request..."
  | Some r =>
      match error r with
      | Some message =>
          if truthy_string message then "Error: " ++ message
          else statusMessage r
      | None => statusMessage r
      end
  end.

(** [result.steps.some(step => !step.url.startsWith('https://'))] *)
Definition hasInsecureUrl (r : RedirectResult) : bool :=
  existsb (fun st => negb (String.prefix "https://" (url st))) (steps r).

(** [result.steps.some(step => step.statusCode === 302
                               || step.statusCode === 307)] *)
Definition hasTemporaryRedirect (r : RedirectResult) : bool :=
  existsb (fun st => (statusCode st =? 302) || (statusCode st =? 307)) (steps r).

(** The loop over the steps with the set [urls] of the URLs seen so
    far: true as soon as a step's URL is in the set. *)
Fixpoint seen_again (urls : list string) (l : list RedirectStep) : bool :=
  match l with
  | [] => false
  | st :: rest =>
      if existsb (String.eqb (url st)) urls then true
      else seen_again (url st :: urls) rest
  end.

(** [hasLoop], with [urls = new Set()] at the start. *)
Definition hasLoop (r : RedirectResult) : bool := seen_again [] (steps r).

(** [calculateSeoImpactScore()] *)
Definition calculateSeoImpactScore (result : option RedirectResult) : Z :=
  match result with
  | None => 0
  | Some r =>
      let score := 100 in
      let score :=
        if 1 <? Z.of_nat (length (steps r))
        then score - (Z.of_nat (length (steps r)) - 1) * 5 else score in
      let score := if hasInsecureUrl r then score - 15 else score in
      let score := if hasErrorStatus r then score - 30 else score in
      let score := if hasLoop r then score - 25 else score in
      let score := if hasTemporaryRedirect r then score - 10 else score in
      Z.max 0 score
  end.

(** One row of the breakdown of the score. *)
Record Deduction : Type := mkDeduction {
  factor : string;
  deduction : Z;
  detected : bool
}.

(** [getScoreDeductions()] *)
Definition getScoreDeductions (result : option RedirectResult) : list Deduction :=
  match result with
  | None => []
  | Some r =>
      [ mkDeduction "Redirect Chain Length"
          (if 1 <? Z.of_nat (length (steps r))
           then (Z.of_nat (length (steps r)) - 1) * 5 else 0)
          (1 <? Z.of_nat (length (steps r)));
        mkDeduction "Non-HTTPS URLs"
          (if hasInsecureUrl r then 15 else 0) (hasInsecureUrl r);
        mkDeduction "Error Status Codes (4xx/5xx)"
          (if hasErrorStatus r then 30 else 0) (hasErrorStatus r);
        mkDeduction "Redirect Loops"
          (if hasLoop r then 25 else 0) (hasLoop r);
        mkDeduction "Temporary Redirects (302/307)"
          (if hasTemporaryRedirect r then 10 else 0) (hasTemporaryRedirect r) ]
  end.

(** [getSeoImpactDescription(score)] *)
Definition getSeoImpactDescription (score : Z) : string :=
  if 90 <=? score then "Excellent"
  else if 70 <=? score then "Good"
  else if 50 <=? score then "Fair"
  else if 30 <=? score then "Poor"
  else "Critical".

End ResultsView.

(** [UrlInputForm]: what the two submit handlers hand to [onSubmit]. *)
Module UrlInputForm.

(** The outcome of a submit handler: the URL given to [onSubmit], or
    the text given to [setError]. *)
Inductive Outcome : Type :=
  | onSubmit (formattedUrl : string)
  | setError (message : string).

(** "Add protocol if not present". *)
Definition formatUrl (url : string) : string :=
  if negb (String.prefix "http://" url) && negb (String.prefix "https://" url)
  then "https://" ++ url
  else url.

(** [handleSubmit], for the [url] of the input. *)
Definition handleSubmit (url : string) : Outcome :=
  if negb (truthy_string url) then setError "Please enter a URL"
  else onSubmit (formatUrl url).

(** The character of ['\n']. *)
Definition line_feed : Ascii.ascii := Ascii.ascii_of_nat 10.

(** [s.split('\n')] *)
Fixpoint split_lines (s : string) : list string :=
  match s with
  | EmptyString => [EmptyString]
  | String c rest =>
      if Ascii.eqb c line_feed then EmptyString :: split_lines rest
      else match split_lines rest with
           | line :: lines => String c line :: lines
           | [] => [String c EmptyString]
           end
  end.

Section Trim.

(** [String.prototype.trim]. *)
Variable trim : string -> string.

(** [handleBatchSubmit], for the [batchUrls] of the text area. *)
Definition handleBatchSubmit (batchUrls : string) : Outcome :=
  if negb (truthy_string batchUrls) then setError "Please enter at least one URL"
  else
    let urlList := filter (fun u => truthy_string (trim u)) (split_lines batchUrls) in
    match urlList with
    | [] => setError "Please enter at least one valid URL"
    | first :: _ => onSubmit (formatUrl first)
    end.

End Trim.

End UrlInputForm.

(** [RedirectChain]: the helpers of the timeline. *)
Module RedirectChain.

(** [truncateUrl(url, maxLength = 50)] *)
Definition truncateUrl (url : string) (maxLength : Z) : string :=
  if Z.of_nat (String.length url) <=? maxLength then url
  else String.substring 0 (Z.to_nat maxLength) url ++ "...".

Definition priorityHeaders : list string :=
  [ "content-type"; "cache-control"; "server"; "content-length";
    "set-cookie"; "strict-transport-security"; "x-frame-options";
    "x-content-type-options" ].

(** The loop over [priorityHeaders], with its [break] once five
    headers are in [result]. *)
Fixpoint add_priority (headers : list (string * string)) (names : list string)
         (result : list (string * string)) : list (string * string) :=
  match names with
  | [] => result
  | headerName :: rest =>
      match lookup String.eqb headerName headers with
      | Some value =>
          if truthy_string value then
            let result' := (result ++ [(headerName, value)])%list in
            if (5 <=? length result')%nat then result'
            else add_priority headers rest result'
          else add_priority headers rest result
      | None => add_priority headers rest result
      end
  end.

Section LowerCase.

(** [String.prototype.toLowerCase]. *)
Variable toLowerCase : string -> string.

(** [getImportantHeaders(headers)]; [headers] lists the entries of the
    object in the order of [Object.entries]. *)
Definition getImportantHeaders (headers : list (string * string))
  : list (string * string) :=
  let result := add_priority headers priorityHeaders [] in
  if (length result <? 5)%nat then
    let remainingHeaders :=
      firstn (5 - length result)
        (filter (fun entry =>
                   negb (existsb (String.eqb (toLowerCase (fst entry))) priorityHeaders))
                headers) in
    (result ++ remainingHeaders)%list
  else result.

End LowerCase.

End RedirectChain.

(** The page: the body [handleCheckUrl] posts, and how the route reads
    it. *)
Module Page.

Import Tracer Route.

(** The JSON values of the request body: strings, numbers, booleans,
    and objects of such values (the shape of [options]). *)
Inductive Scalar : Type :=
  | JString (s : string)
  | JNumber (n : Z)
  | JBoolean (b : bool).

Inductive Json : Type :=
  | JScalar (v : Scalar)
  | JObject (properties : list (string * Scalar)).

(** The [options] argument of [handleCheckUrl]. *)
Record PageOptions : Type := mkPageOptions {
  page_userAgent : option string;
  page_timeout : option Z
}.

(** The properties an object contributes to a spread or to
    [JSON.stringify]: those that are defined. *)
Definition defined (key : string) (value : option Scalar) : list (string * Json) :=
  match value with
  | Some v => [(key, JScalar v)]
  | None => []
  end.

(** [JSON.stringify({ url, ...options })], as the object the route
    parses back. *)
Definition request_body (url : string) (options : option PageOptions)
  : list (string * Json) :=
  ("url", JScalar (JString url))
  :: match options with
     | Some o =>
         (defined "userAgent" (option_map JString (page_userAgent o))
          ++ defined "timeout" (option_map JNumber (page_timeout o)))%list
     | None => []
     end.

(** Reading a property at the type the route gives it; the outer
    [None] is a value of another type, which the typed model of the
    route leaves out. *)
Definition as_string (v : option Scalar) : option (option string) :=
  match v with
  | None => Some None
  | Some (JString s) => Some (Some s)
  | Some _ => None
  end.

Definition as_number (v : option Scalar) : option (option Z) :=
  match v with
  | None => Some None
  | Some (JNumber n) => Some (Some n)
  | Some _ => None
  end.

Definition as_boolean (v : option Scalar) : option (option bool) :=
  match v with
  | None => Some None
  | Some (JBoolean b) => Some (Some b)
  | Some _ => None
  end.

Definition as_scalar (v : option Json) : option (option Scalar) :=
  match v with
  | None => Some None
  | Some (JScalar x) => Some (Some x)
  | Some (JObject _) => None
  end.

Definition as_options (v : option Json) : option (option UrlCheckOptions) :=
  match v with
  | None => Some None
  | Some (JObject o) =>
      match as_string (lookup String.eqb "userAgent" o),
            as_number (lookup String.eqb "timeout" o),
            as_boolean (lookup String.eqb "followRedirects" o),
            as_number (lookup String.eqb "maxRedirects" o) with
      | Some ua, Some t, Some f, Some m => Some (Some (mkOptions ua t f m))
      | _, _, _, _ => None
      end
  | Some (JScalar _) => None
  end.

(** [const { url, options } = body as { url: string;
    options?: UrlCheckOptions }] *)
Definition read_body (body : list (string * Json)) : option Body :=
  match as_scalar (lookup String.eqb "url" body) with
  | Some v =>
      match as_string v, as_options (lookup String.eqb "options" body) with
      | Some u, Some o => Some (mkBody u o)
      | _, _ => None
      end
  | None => None
  end.

End Page.

(* ------------------------------------------------------------------ *)
(** * Properties of the status classifier *)

Module ClassifierFacts.

Import Classifier.

(** The table's keys are the specification's list without 305 and 306. *)
Lemma table_codes_described : table_codes = described_codes.
Proof. reflexivity. Qed.

Lemma lookup_Z_none {V : Type} (c : Z) (t : list (Z * V)) :
  ~ In c (map fst t) -> lookup Z.eqb c t = None.
Proof.
  induction t as [| [k v] t IH]; simpl; intros H.
  - reflexivity.
  - destruct (Z.eqb_spec c k) as [-> | _].
    + exfalso. apply H. now left.
    + apply IH. intros Hin. apply H. now right.
Qed.

(** C4, as the code has it: below 200 the class is empty; the 2xx, 3xx
    and 4xx classes are the half-open ranges [200,300), [300,400) and
    [400,500); every code from 500 upwards, 600 and above included, is
    in the 5xx class. *)
Theorem getStatusCodeClass_ranges (c : Z) :
  (c < 200 -> getStatusCodeClass c = EmptyString)
  /\ (200 <= c < 300 -> getStatusCodeClass c = "status-2xx")
  /\ (300 <= c < 400 -> getStatusCodeClass c = "status-3xx")
  /\ (400 <= c < 500 -> getStatusCodeClass c = "status-4xx")
  /\ (500 <= c -> getStatusCodeClass c = "status-5xx").
Proof.
  unfold getStatusCodeClass.
  repeat split; intros H;
    destruct (Z.leb_spec 200 c), (Z.ltb_spec c 300),
             (Z.leb_spec 300 c), (Z.ltb_spec c 400),
             (Z.leb_spec 400 c), (Z.ltb_spec c 500),
             (Z.leb_spec 500 c); simpl; try reflexivity; lia.
Qed.

(** C4 fails as stated: 799 is outside 200-599 and its class is not the
    empty one. *)
Lemma getStatusCodeClass_799 :
  (799 < 200 \/ 600 <= 799)
  /\ getStatusCodeClass 799 = "status-5xx"
  /\ getStatusCodeClass 799 <> EmptyString.
Proof.
  split; [right; lia |].
  split; [reflexivity | discriminate].
Qed.

(** C5, as the code has it: for 200, 201, 202, 204, 300-304, 307, 308,
    400, 401, 403, 404, 405, 408, 429 and 500-504 the description is
    the standard reason phrase; for every other code, 305 and 306
    included, it is "Unknown Status". *)
Theorem getStatusDescription_table (c : Z) :
  (In c described_codes ->
   Some (getStatusDescription c) = standard_reason_phrase c)
  /\ (~ In c described_codes -> getStatusDescription c = "Unknown Status").
Proof.
  split.
  - intros H. simpl in H.
    repeat (destruct H as [<- | H]; [reflexivity |]).
    contradiction.
  - intros H. unfold getStatusDescription.
    rewrite lookup_Z_none; [reflexivity |].
    fold table_codes. now rewrite table_codes_described.
Qed.

(** C5 fails as stated: 305 is in the specification's list, its reason
    phrase is "Use Proxy", and the code answers "Unknown Status" (as it
    does for 306). *)
Lemma getStatusDescription_305 :
  In 305 spec_well_known_codes
  /\ standard_reason_phrase 305 = Some "Use Proxy"
  /\ getStatusDescription 305 = "Unknown Status"
  /\ getStatusDescription 306 = "Unknown Status".
Proof.
  split; [simpl; tauto |].
  repeat split; reflexivity.
Qed.

End ClassifierFacts.

(* ------------------------------------------------------------------ *)
(** * Properties of [checkUrl] *)

Module TracerFacts.

Import Tracer.

Section World.

Variable net : list Request -> Request -> Response + Thrown.
Variable URL_href : string -> string -> option string.
Variable clock : nat -> list Request -> Z.

Local Abbreviation loop_body := (loop_body net URL_href).
Local Abbreviation while_loop := (while_loop net URL_href).
Local Abbreviation checkUrl_try := (checkUrl_try net URL_href clock).
Local Abbreviation checkUrl_catch := (checkUrl_catch clock).
Local Abbreviation checkUrl := (checkUrl net URL_href clock).

(** Every way one run of the loop body can go. *)
Lemma loop_body_cases (opts : UrlCheckOptions) (v : LoopVars) (s : State) :
  let rq := request_to opts (currentUrl v) in
  match net (requests s) rq with
  | inr e => loop_body opts v s = (Throw e, issued rq s)
  | inl r =>
      let s1 := with_result (add_step (step_of_response (currentUrl v) r)) (issued rq s) in
      if reached_the_end r then loop_body opts v s = (Ret (Break, v), s1)
      else
        match URL_href (location_text (res_location r)) (currentUrl v) with
        | None => loop_body opts v s = (Throw (JsError "Invalid URL"), s1)
        | Some href =>
            if visited (steps (result s1)) href
            then loop_body opts v s
                 = (Ret (Break, advance href v),
                    with_result (with_error "Circular redirect detected") s1)
            else loop_body opts v s = (Ret (Continue, advance href v), s1)
        end
  end.
Proof.
  intros rq. unfold Tracer.loop_body, bind, axios_get. fold rq.
  destruct (net (requests s) rq) as [r | e]; [| reflexivity].
  cbn -[visited]. destruct (reached_the_end r); [reflexivity |].
  unfold new_URL.
  destruct (URL_href _ _) as [href |]; [| reflexivity].
  cbn -[visited].
  destruct (visited _ href); reflexivity.
Qed.

(** A run of the body that asks for another one has used up one unit of
    [maxRedirects]. *)
Lemma loop_body_continue opts v s v' s' :
  loop_body opts v s = (Ret (Continue, v'), s') ->
  loop_maxRedirects v' = loop_maxRedirects v - 1.
Proof.
  intros H. pose proof (loop_body_cases opts v s) as C. cbv zeta in C.
  destruct (net _ _) as [r | e]; [| congruence].
  destruct (reached_the_end r); [congruence |].
  destruct (URL_href _ _) as [href |]; [| congruence].
  destruct (visited _ href); rewrite C in H; inversion H; reflexivity.
Qed.

Lemma loop_body_ends opts v s : fst (loop_body opts v s) <> Diverge.
Proof.
  pose proof (loop_body_cases opts v s) as C. cbv zeta in C.
  destruct (net _ _) as [r | e]; [| rewrite C; discriminate].
  destruct (reached_the_end r); [rewrite C; discriminate |].
  destruct (URL_href _ _) as [href |]; [| rewrite C; discriminate].
  destruct (visited _ href); rewrite C; discriminate.
Qed.

(** The loop ends within [maxRedirects] runs of its body. *)
Lemma while_loop_ends (fuel : nat) : forall opts v s,
  (Z.to_nat (loop_maxRedirects v) <= fuel)%nat ->
  fst (while_loop fuel opts v s) <> Diverge.
Proof.
  induction fuel as [| fuel IH]; intros opts v s Hfuel; simpl.
  - destruct (Z.ltb_spec 0 (loop_maxRedirects v)); [lia | discriminate].
  - destruct (Z.ltb_spec 0 (loop_maxRedirects v)); [| discriminate].
    unfold bind.
    destruct (loop_body opts v s) as [[[c v'] | e |] s'] eqn:E.
    + destruct c; simpl; [discriminate |].
      apply IH. apply loop_body_continue in E. lia.
    + discriminate.
    + exfalso. apply (loop_body_ends opts v s). now rewrite E.
Qed.

Lemma checkUrl_try_ends u opts t0 s : fst (checkUrl_try u opts t0 s) <> Diverge.
Proof.
  unfold Tracer.checkUrl_try.
  destruct (invalid_url u); [discriminate |].
  destruct (not_following _).
  - unfold bind, axios_get. destruct (net _ _); discriminate.
  - unfold bind at 1.
    destruct (Tracer.while_loop _ _ _ _ _ _) as [[v | e |] s'] eqn:E.
    + unfold bind.
      destruct (_ && _); simpl;
        destruct (last_step _); discriminate.
    + discriminate.
    + exfalso. eapply while_loop_ends; [| rewrite E; reflexivity]. lia.
Qed.

(** The [catch] block always returns: the message of what was thrown
    becomes [error], and the steps are those recorded so far plus the
    step of the response the fault carried, if any. *)
Lemma checkUrl_catch_returns u t0 e s :
  exists res s',
    checkUrl_catch u t0 e s = (Ret res, s')
    /\ result s' = res
    /\ requests s' = requests s
    /\ error res = Some (thrown_message e)
    /\ steps res = (steps (result s) ++ thrown_steps e u)%list
    /\ finalUrl res = match last_step (steps res) with
                      | Some st => url st
                      | None => u
                      end
    /\ redirectCount res = Z.max (Z.of_nat (length (steps res)) - 1) 0.
Proof.
  destruct e as [msg cfg [r |] | msg |];
    (eexists; eexists; split; [reflexivity |]; cbn;
     rewrite ?app_nil_r;
     repeat split; try reflexivity;
     match goal with
     | |- context [0 <? ?x] => destruct (Z.ltb_spec 0 x); lia
     end).
Qed.

(** *** The loop, one run of its body at a time *)

Lemma while_loop_step fuel opts v s :
  0 < loop_maxRedirects v ->
  while_loop (S fuel) opts v s
  = match loop_body opts v s with
    | (Ret (Break, v'), s') => (Ret v', s')
    | (Ret (Continue, v'), s') => while_loop fuel opts v' s'
    | (Throw e, s') => (Throw e, s')
    | (Diverge, s') => (Diverge, s')
    end.
Proof.
  intros H. simpl. destruct (Z.ltb_spec 0 (loop_maxRedirects v)); [| lia].
  unfold bind. destruct (loop_body opts v s) as [[[[|] v'] | e |] s']; reflexivity.
Qed.

Lemma while_loop_done fuel opts v s :
  loop_maxRedirects v <= 0 -> while_loop fuel opts v s = (Ret v, s).
Proof.
  intros H. destruct fuel; simpl;
    destruct (Z.ltb_spec 0 (loop_maxRedirects v)); try lia; reflexivity.
Qed.

Lemma redirects_to_followed r base target :
  redirects_to URL_href r base target ->
  reached_the_end r = false
  /\ URL_href (location_text (res_location r)) base = Some target.
Proof.
  intros [Hst (loc & Hloc & Htruthy & Hhref)].
  unfold reached_the_end. rewrite Hloc. cbn [truthy location_text].
  rewrite Htruthy.
  destruct (Z.ltb_spec (status r) 300), (Z.leb_spec 400 (status r));
    try lia.
  now split.
Qed.

(** A redirect to a URL not yet visited: the body records the step and
    asks for another run. *)
Lemma loop_body_redirect opts v s r target :
  net (requests s) (request_to opts (currentUrl v)) = inl r ->
  redirects_to URL_href r (currentUrl v) target ->
  visited (steps (result s) ++ [step_of_response (currentUrl v) r]) target = false ->
  loop_body opts v s
  = (Ret (Continue, advance target v),
     with_result (add_step (step_of_response (currentUrl v) r))
                 (issued (request_to opts (currentUrl v)) s)).
Proof.
  intros Hnet Hred Hnew. apply redirects_to_followed in Hred as [Hend Hhref].
  pose proof (loop_body_cases opts v s) as C. cbv zeta in C.
  rewrite Hnet, Hend, Hhref in C. cbn [with_result issued result steps add_step] in C.
  rewrite Hnew in C. exact C.
Qed.

(** A redirect to a URL already visited: the body records the step,
    counts the redirect, sets the error and breaks. *)
Lemma loop_body_circular opts v s r target :
  net (requests s) (request_to opts (currentUrl v)) = inl r ->
  redirects_to URL_href r (currentUrl v) target ->
  visited (steps (result s) ++ [step_of_response (currentUrl v) r]) target = true ->
  loop_body opts v s
  = (Ret (Break, advance target v),
     with_result (with_error "Circular redirect detected")
       (with_result (add_step (step_of_response (currentUrl v) r))
                    (issued (request_to opts (currentUrl v)) s))).
Proof.
  intros Hnet Hred Hseen. apply redirects_to_followed in Hred as [Hend Hhref].
  pose proof (loop_body_cases opts v s) as C. cbv zeta in C.
  rewrite Hnet, Hend, Hhref in C. cbn [with_result issued result steps add_step] in C.
  rewrite Hseen in C. exact C.
Qed.

(** A fault: the body throws it, with no step recorded. *)
Lemma loop_body_fault opts v s e :
  net (requests s) (request_to opts (currentUrl v)) = inr e ->
  loop_body opts v s = (Throw e, issued (request_to opts (currentUrl v)) s).
Proof.
  intros Hnet. pose proof (loop_body_cases opts v s) as C. cbv zeta in C.
  now rewrite Hnet in C.
Qed.

Lemma visited_app l st u :
  visited (l ++ [st]) u = visited l u || String.eqb (url st) u.
Proof.
  unfold visited. rewrite existsb_app. simpl. now rewrite orb_false_r.
Qed.

(** What the merged options read for a property that [options] has. *)
Lemma read_spread {A : Type} (d o : Property A) (v : A) :
  read o = Some v -> read (spread d o) = Some v.
Proof. destruct o as [| value]; cbn; [discriminate | trivial]. Qed.

Lemma maxRedirects_merged options n :
  maxRedirects options = Some n ->
  maxRedirects (mergeOptions defaultOptions options) = Some n.
Proof. apply read_spread. Qed.

Lemma followRedirects_merged options b :
  followRedirects options = Some b ->
  followRedirects (mergeOptions defaultOptions options) = Some b.
Proof. apply read_spread. Qed.

Lemma following_merged options :
  followRedirects (mergeOptions defaultOptions options) = Some true ->
  not_following (followRedirects (mergeOptions defaultOptions options)) = false.
Proof. intros H. now rewrite H. Qed.

(** [checkUrl] reads the clock, makes its fresh [result] and runs the
    [try] block, handing what it throws to the [catch] block. *)
Lemma checkUrl_unfold u options s :
  checkUrl u options s
  = try_catch (checkUrl_try u (mergeOptions defaultOptions options)
                            (start_time clock s))
              (checkUrl_catch u (start_time clock s))
              (started u s).
Proof. reflexivity. Qed.

(** *** From the loop to the result *)

(** When the loop returns, so does [checkUrl]: the steps are those of
    the loop, [redirectCount] is the loop's counter, [finalUrl] the URL
    of the last step, and the limit text replaces any error of the loop
    when [maxRedirects] is 0 and the counter has reached the option. *)
Lemma checkUrl_after_loop u options s v s1 st :
  let opts := mergeOptions defaultOptions options in
  let m := initial_maxRedirects (maxRedirects opts) in
  invalid_url u = false ->
  followRedirects opts = Some true ->
  while_loop (Z.to_nat m) opts (mkLoop u 0 m) (started u s) = (Ret v, s1) ->
  last_step (steps (result s1)) = Some st ->
  exists res s2,
    checkUrl u options s = (Ret res, s2)
    /\ requests s2 = requests s1
    /\ steps res = steps (result s1)
    /\ redirectCount res = loop_redirectCount v
    /\ finalUrl res = url st
    /\ initialUrl res = initialUrl (result s1)
    /\ error res
       = if (loop_maxRedirects v =? 0)
            && count_reaches (loop_redirectCount v) (maxRedirects opts)
         then Some (limit_message opts)
         else error (result s1).
Proof.
  intros opts m Hvalid Hfollow Hloop Hlast.
  rewrite checkUrl_unfold. unfold try_catch, Tracer.checkUrl_try.
  rewrite Hvalid, (following_merged _ Hfollow).
  fold opts. cbv zeta. cbn [loop_maxRedirects]. fold m.
  unfold bind at 1. rewrite Hloop.
  destruct ((loop_maxRedirects v =? 0) && _);
    cbn -[last_step]; rewrite Hlast; cbn;
    (eexists; eexists; split; [reflexivity |]); repeat split; reflexivity.
Qed.

(** When the loop throws, [checkUrl] returns what the [catch] block
    makes of it. *)
Lemma checkUrl_loop_throws u options s e s1 :
  let opts := mergeOptions defaultOptions options in
  let m := initial_maxRedirects (maxRedirects opts) in
  invalid_url u = false ->
  followRedirects opts = Some true ->
  while_loop (Z.to_nat m) opts (mkLoop u 0 m) (started u s) = (Throw e, s1) ->
  checkUrl u options s = checkUrl_catch u (start_time clock s) e s1.
Proof.
  intros opts m Hvalid Hfollow Hloop.
  rewrite checkUrl_unfold. unfold try_catch, Tracer.checkUrl_try.
  rewrite Hvalid, (following_merged _ Hfollow).
  fold opts. cbv zeta. cbn [loop_maxRedirects]. fold m.
  unfold bind at 1. now rewrite Hloop.
Qed.

(** *** A circular chain A -> B -> A *)

Lemma circular_chain (a b : string) (options : UrlCheckOptions) (s : State)
      (ra rb : Response) :
  let opts := mergeOptions defaultOptions options in
  let m := initial_maxRedirects (maxRedirects opts) in
  a <> b ->
  invalid_url a = false ->
  followRedirects opts = Some true ->
  2 <= m ->
  net (requests s) (request_to opts a) = inl ra ->
  redirects_to URL_href ra a b ->
  net (requests s ++ [request_to opts a])%list (request_to opts b) = inl rb ->
  redirects_to URL_href rb b a ->
  exists res s',
    checkUrl a options s = (Ret res, s')
    /\ requests s' = (requests s ++ [request_to opts a; request_to opts b])%list
    /\ steps res = [step_of_response a ra; step_of_response b rb]
    /\ redirectCount res = 2
    /\ finalUrl res = b
    /\ error res
       = if (m =? 2) && count_reaches 2 (maxRedirects opts)
         then Some (limit_message opts)
         else Some "Circular redirect detected".
Proof.
  intros opts m Hab Hvalid Hfollow Hm Hneta Hreda Hnetb Hredb.
  assert (Hloop :
    while_loop (Z.to_nat m) opts (mkLoop a 0 m) (started a s)
    = (Ret (advance a (advance b (mkLoop a 0 m))),
       with_result (with_error "Circular redirect detected")
         (with_result (add_step (step_of_response b rb))
            (issued (request_to opts b)
               (with_result (add_step (step_of_response a ra))
                  (issued (request_to opts a) (started a s))))))).
  { destruct (Z.to_nat m) as [| [| fuel]] eqn:Efuel; try lia.
    rewrite while_loop_step by (cbn; lia).
    rewrite (loop_body_redirect opts _ _ ra b); try assumption.
    2:{ cbn. rewrite orb_false_r. now apply String.eqb_neq. }
    rewrite while_loop_step by (cbn; lia).
    rewrite (loop_body_circular opts _ _ rb a); try assumption.
    - reflexivity.
    - cbn. now rewrite String.eqb_refl. }
  destruct (checkUrl_after_loop a options s _ _ (step_of_response b rb)
              Hvalid Hfollow Hloop eq_refl)
    as (res & s2 & Hrun & Hreq & Hsteps & Hcount & Hfinal & _ & Herr).
  exists res, s2. split; [exact Hrun |].
  rewrite Hreq, Hsteps, Hcount, Hfinal, Herr. fold opts. cbn.
  rewrite <- app_assoc. repeat split.
  replace (m - 1 - 1 =? 0) with (m =? 2); [reflexivity |].
  destruct (Z.eqb_spec m 2), (Z.eqb_spec (m - 1 - 1) 0); try reflexivity; lia.
Qed.

(** *** A chain of redirects to new URLs *)

Lemma chain_requests_S opts chain n :
  chain_requests opts chain (S n)
  = (chain_requests opts chain n ++ [request_to opts (chain n)])%list.
Proof. unfold chain_requests. now rewrite seq_S, map_app. Qed.

Lemma chain_steps_S chain resp n :
  chain_steps chain resp (S n)
  = (chain_steps chain resp n ++ [step_of_response (chain n) (resp n)])%list.
Proof. unfold chain_steps. now rewrite seq_S, map_app. Qed.

Lemma chain_steps_length chain resp n : length (chain_steps chain resp n) = n.
Proof. unfold chain_steps. now rewrite length_map, length_seq. Qed.

Lemma visited_chain_steps chain resp u n :
  (forall j, (j < n)%nat -> chain j <> u) ->
  visited (chain_steps chain resp n) u = false.
Proof.
  induction n as [| n IH]; intros Hnew; [reflexivity |].
  rewrite chain_steps_S, visited_app, IH by (intros j Hj; apply Hnew; lia).
  cbn. apply String.eqb_neq, Hnew. lia.
Qed.

Lemma last_step_app l st : last_step (l ++ [st]) = Some st.
Proof. unfold last_step. rewrite map_app. apply last_last. Qed.

(** Along such a chain the loop runs until [maxRedirects] is 0, with
    one request and one step for each unit, and sets no error. *)
Lemma while_loop_chain opts log chain resp (k : nat) : forall i v s,
  follows_chain net URL_href opts log chain resp (i + k) ->
  currentUrl v = chain i ->
  loop_maxRedirects v = Z.of_nat k ->
  requests s = (log ++ chain_requests opts chain i)%list ->
  steps (result s) = chain_steps chain resp i ->
  exists s',
    while_loop k opts v s
    = (Ret (mkLoop (chain (i + k)%nat) (loop_redirectCount v + Z.of_nat k) 0), s')
    /\ requests s' = (log ++ chain_requests opts chain (i + k))%list
    /\ steps (result s') = chain_steps chain resp (i + k)
    /\ error (result s') = error (result s)
    /\ initialUrl (result s') = initialUrl (result s).
Proof.
  induction k as [| k IH]; intros i v s Hchain Hurl Hmax Hreq Hsteps.
  - exists s. rewrite while_loop_done by lia. rewrite Nat.add_0_r.
    destruct v as [cu rc mr]; cbn in *; subst cu mr.
    rewrite Z.add_0_r. now repeat split.
  - destruct (Hchain i ltac:(lia)) as (Hnet & Hred & Hnew).
    rewrite <- Hreq, <- Hurl in Hnet. rewrite <- Hurl in Hred.
    rewrite while_loop_step by lia.
    rewrite (loop_body_redirect opts v s (resp i) (chain (S i)) Hnet Hred).
    2:{ rewrite Hsteps, Hurl, <- chain_steps_S.
        apply visited_chain_steps. intros j Hj. apply Hnew. lia. }
    destruct (IH (S i) (advance (chain (S i)) v)
                (with_result (add_step (step_of_response (currentUrl v) (resp i)))
                   (issued (request_to opts (currentUrl v)) s)))
      as (s' & Hrun & Hreq' & Hsteps' & Herr' & Hinit').
    + now rewrite Nat.add_succ_l, <- Nat.add_succ_r.
    + reflexivity.
    + cbn. lia.
    + cbn [requests with_result issued].
      rewrite Hreq, Hurl, chain_requests_S. now rewrite app_assoc.
    + cbn [steps result with_result add_step issued].
      now rewrite Hsteps, Hurl, chain_steps_S.
    + exists s'. rewrite Hrun, Hreq', Hsteps', Herr', Hinit'.
      rewrite Nat.add_succ_l, <- Nat.add_succ_r. cbn [advance loop_redirectCount].
      repeat split. do 3 f_equal. lia.
Qed.

(** A chain as long as the loop's bound: the loop uses the bound up and
    [checkUrl] reports the limit, naming the option as it was given;
    when the merged [maxRedirects] is [undefined], the comparison with it
    is false and no error is set. *)
Lemma checkUrl_exhausts_limit (options : UrlCheckOptions) (s : State)
      (chain : nat -> string) (resp : nat -> Response) (n : nat) :
  let opts := mergeOptions defaultOptions options in
  invalid_url (chain O) = false ->
  followRedirects opts = Some true ->
  initial_maxRedirects (maxRedirects opts) = Z.of_nat (S n) ->
  follows_chain net URL_href opts (requests s) chain resp (S n) ->
  exists res s',
    checkUrl (chain O) options s = (Ret res, s')
    /\ requests s' = (requests s ++ chain_requests opts chain (S n))%list
    /\ steps res = chain_steps chain resp (S n)
    /\ redirectCount res = Z.of_nat (S n)
    /\ finalUrl res = chain n
    /\ error res = match maxRedirects opts with
                   | Some _ => Some (limit_message opts)
                   | None => None
                   end.
Proof.
  intros opts Hvalid Hfollow Hmax Hchain.
  destruct (while_loop_chain opts (requests s) chain resp (S n) O
              (mkLoop (chain O) 0 (Z.of_nat (S n))) (started (chain O) s))
    as (s1 & Hloop & Hreq1 & Hsteps1 & Herr1 & _);
    try reflexivity; try exact Hchain.
  { cbn. now rewrite app_nil_r. }
  rewrite <- (Nat2Z.id (S n)) in Hloop at 1. rewrite <- Hmax in Hloop.
  destruct (checkUrl_after_loop (chain O) options s _ _
              (step_of_response (chain n) (resp n)) Hvalid Hfollow Hloop)
    as (res & s2 & Hrun & Hreq & Hsteps & Hcount & Hfinal & _ & Herr).
  { rewrite Hsteps1. cbn [Nat.add]. rewrite chain_steps_S. apply last_step_app. }
  exists res, s2. split; [exact Hrun |].
  rewrite Hreq, Hreq1, Hsteps, Hsteps1, Hcount, Hfinal, Herr.
  cbn [Nat.add loop_redirectCount loop_maxRedirects url step_of_response].
  repeat split; [lia |].
  fold opts. rewrite Hmax. change (0 =? 0) with true. cbn [andb].
  unfold initial_maxRedirects, or_number in Hmax.
  destruct (maxRedirects opts) as [limit |] eqn:E.
  - replace (count_reaches _ _) with true; [reflexivity |].
    cbn [count_reaches]. symmetry. apply Z.leb_le.
    destruct (Z.eqb_spec limit 0); lia.
  - cbn [count_reaches]. rewrite Herr1. reflexivity.
Qed.

(** *** Bounds that hold for every network *)

(** When the loop's bound is positive and the merged option is a
    number, the bound is at least the option (the option itself, or 20
    for the option 0). *)
Lemma count_reaches_initial (limit : option Z) :
  limit <> None ->
  0 < initial_maxRedirects limit ->
  count_reaches (initial_maxRedirects limit) limit = true.
Proof.
  destruct limit as [n |]; [intros _ | congruence]. cbn.
  unfold or_number. destruct (Z.eqb_spec n 0); intros H; apply Z.leb_le; lia.
Qed.

Lemma thrown_steps_length e u : (length (thrown_steps e u) <= 1)%nat.
Proof. destruct e as [msg cfg [r |] | msg |]; cbn; lia. Qed.

(** However the loop ends, it has issued at most [maxRedirects]
    requests; its counter and [maxRedirects] add up to what they added
    up to at the start, and the steps recorded (with the one the [catch]
    block may add) are no more than that sum. *)
Lemma while_loop_bounds (fuel : nat) : forall opts v s,
  0 <= loop_maxRedirects v ->
  Z.of_nat (length (steps (result s))) = loop_redirectCount v ->
  match while_loop fuel opts v s with
  | (Ret v', s') =>
      0 <= loop_maxRedirects v'
      /\ loop_redirectCount v <= loop_redirectCount v'
      /\ loop_redirectCount v' + loop_maxRedirects v'
         = loop_redirectCount v + loop_maxRedirects v
      /\ Z.of_nat (length (steps (result s')))
         <= loop_redirectCount v + loop_maxRedirects v
      /\ Z.of_nat (length (requests s'))
         <= Z.of_nat (length (requests s)) + loop_maxRedirects v
  | (Throw e, s') =>
      (forall u, Z.of_nat (length (steps (result s') ++ thrown_steps e u))
                 <= loop_redirectCount v + loop_maxRedirects v)
      /\ Z.of_nat (length (requests s'))
         <= Z.of_nat (length (requests s)) + loop_maxRedirects v
  | (Diverge, _) => True
  end.
Proof.
  induction fuel as [| fuel IH]; intros opts v s Hmax Hlen.
  - simpl. destruct (Z.ltb_spec 0 (loop_maxRedirects v)); [exact I |].
    cbn. lia.
  - destruct (Z.ltb_spec 0 (loop_maxRedirects v)) as [Hpos | Hzero].
    2:{ rewrite while_loop_done by lia. lia. }
    rewrite while_loop_step by lia.
    pose proof (loop_body_cases opts v s) as C. cbv zeta in C.
    destruct (net _ _) as [r | e].
    + destruct (reached_the_end r).
      { rewrite C. cbn. rewrite !length_app. cbn. lia. }
      destruct (URL_href _ _) as [href |].
      2:{ rewrite C. cbn. rewrite !length_app. cbn. split; [intros _ |]; lia. }
      destruct (visited _ href); rewrite C.
      { cbn. rewrite !length_app. cbn. lia. }
      specialize (IH opts (advance href v)
        (with_result (add_step (step_of_response (currentUrl v) r))
           (issued (request_to opts (currentUrl v)) s))).
      cbn [advance loop_maxRedirects loop_redirectCount with_result issued
           add_step result steps requests] in IH.
      rewrite !length_app in IH. cbn [length] in IH.
      specialize (IH ltac:(lia) ltac:(lia)).
      destruct (while_loop fuel opts _ _) as [[v' | e |] s'].
      * lia.
      * destruct IH as [IH1 IH2]. split; [intros u; specialize (IH1 u) |]; lia.
      * exact I.
    + rewrite C. cbn. split.
      * intros u. rewrite length_app.
        pose proof (thrown_steps_length e u). lia.
      * rewrite length_app. cbn. lia.
Qed.

(** When the loop returns with no step recorded, reading the URL of the
    last step throws, and the [catch] block takes over. *)
Lemma checkUrl_after_loop_none u options s v s1 :
  let opts := mergeOptions defaultOptions options in
  let m := initial_maxRedirects (maxRedirects opts) in
  invalid_url u = false ->
  followRedirects opts = Some true ->
  while_loop (Z.to_nat m) opts (mkLoop u 0 m) (started u s) = (Ret v, s1) ->
  last_step (steps (result s1)) = None ->
  exists s1',
    checkUrl u options s
    = checkUrl_catch u (start_time clock s)
        (JsError "Cannot read properties of undefined (reading 'url')") s1'
    /\ steps (result s1') = steps (result s1)
    /\ requests s1' = requests s1.
Proof.
  intros opts m Hvalid Hfollow Hloop Hlast.
  rewrite checkUrl_unfold. unfold try_catch, Tracer.checkUrl_try.
  rewrite Hvalid, (following_merged _ Hfollow).
  fold opts. cbv zeta. cbn [loop_maxRedirects]. fold m.
  unfold bind at 1. rewrite Hloop.
  destruct ((loop_maxRedirects v =? 0) && _);
    cbn -[last_step]; rewrite Hlast; cbn;
    (eexists; split; [reflexivity |]); split; reflexivity.
Qed.

(** With [followRedirects] on and a bound that is not negative,
    [checkUrl] issues no more requests, records no more steps and
    counts no more redirects than the bound of the loop. *)
Lemma checkUrl_bounded u options s :
  let opts := mergeOptions defaultOptions options in
  let m := initial_maxRedirects (maxRedirects opts) in
  followRedirects opts = Some true ->
  0 < m ->
  exists res s',
    checkUrl u options s = (Ret res, s')
    /\ 0 <= redirectCount res <= m
    /\ Z.of_nat (length (steps res)) <= m
    /\ Z.of_nat (length (requests s')) <= Z.of_nat (length (requests s)) + m
    /\ (redirectCount res = m -> maxRedirects opts <> None ->
        error res = Some (limit_message opts)).
Proof.
  intros opts m Hfollow Hpos.
  assert (Hm : 0 <= m) by lia.
  destruct (invalid_url u) eqn:Hvalid.
  - rewrite checkUrl_unfold. unfold try_catch, Tracer.checkUrl_try.
    rewrite Hvalid. cbn [throw].
    destruct (checkUrl_catch_returns u (start_time clock s)
                (JsError "Invalid URL. Please include the protocol (http:// or https://)")
                (started u s))
      as (res & s' & Hrun & _ & Hreq & _ & Hsteps & _ & Hcount).
    exists res, s'. split; [exact Hrun |].
    rewrite Hcount, Hsteps, Hreq. cbn. lia.
  - pose proof (while_loop_bounds (Z.to_nat m) opts (mkLoop u 0 m) (started u s))
      as B.
    cbn [loop_maxRedirects loop_redirectCount started result steps requests length]
      in B.
    specialize (B Hm eq_refl).
    destruct (while_loop (Z.to_nat m) opts _ _) as [[v | e |] s1] eqn:Hloop.
    + destruct (last_step (steps (result s1))) as [st |] eqn:Hlast.
      * destruct (checkUrl_after_loop u options s v s1 st Hvalid Hfollow Hloop Hlast)
          as (res & s2 & Hrun & Hreq & Hsteps & Hcount & _ & _ & Herr).
        exists res, s2. split; [exact Hrun |].
        rewrite Hreq, Hsteps, Hcount.
        repeat split; try lia.
        intros Hall Hlimit. rewrite Herr.
        replace (loop_maxRedirects v) with 0 by lia. rewrite Hall.
        fold opts. unfold m.
        rewrite (count_reaches_initial (maxRedirects opts) Hlimit Hpos).
        reflexivity.
      * destruct (checkUrl_after_loop_none u options s v s1 Hvalid Hfollow Hloop Hlast)
          as (s1' & Hrun & Hsteps1 & Hreq1).
        destruct (checkUrl_catch_returns u (start_time clock s)
                    (JsError "Cannot read properties of undefined (reading 'url')") s1')
          as (res & s' & Hrun' & _ & Hreq & _ & Hsteps & _ & Hcount).
        exists res, s'. split; [now rewrite Hrun |].
        rewrite Hcount, Hsteps, Hreq, Hsteps1, Hreq1. cbn [thrown_steps].
        rewrite app_nil_r. lia.
    + rewrite (checkUrl_loop_throws u options s e s1 Hvalid Hfollow Hloop).
      destruct (checkUrl_catch_returns u (start_time clock s) e s1)
        as (res & s' & Hrun' & _ & Hreq & _ & Hsteps & _ & Hcount).
      exists res, s'. split; [exact Hrun' |].
      destruct B as [B1 B2]. specialize (B1 u).
      rewrite Hcount, Hsteps, Hreq. lia.
    + exfalso. apply (while_loop_ends (Z.to_nat m) opts (mkLoop u 0 m) (started u s)).
      * cbn. lia.
      * now rewrite Hloop.
Qed.

(** *** How the loop can end *)

Lemma terminal_step_of_response u r :
  terminal_step (step_of_response u r) = reached_the_end r.
Proof. reflexivity. Qed.

(** When the loop returns, it has used its bound up, or it has set the
    text of the circular redirect, or its last step is a terminal
    response, with a positive bound left and the error as it was. *)
Lemma while_loop_outcome (fuel : nat) : forall opts v s,
  match while_loop fuel opts v s with
  | (Ret v', s') =>
      loop_maxRedirects v' <= 0
      \/ error (result s') = Some "Circular redirect detected"
      \/ (0 < loop_maxRedirects v'
          /\ error (result s') = error (result s)
          /\ exists st, last_step (steps (result s')) = Some st
                        /\ terminal_step st = true)
  | _ => True
  end.
Proof.
  induction fuel as [| fuel IH]; intros opts v s.
  - simpl. destruct (Z.ltb_spec 0 (loop_maxRedirects v)); [exact I |].
    cbn. now left.
  - destruct (Z.ltb_spec 0 (loop_maxRedirects v)) as [Hpos | Hzero].
    2:{ rewrite while_loop_done by lia. now left. }
    rewrite while_loop_step by lia.
    pose proof (loop_body_cases opts v s) as C. cbv zeta in C.
    destruct (net _ _) as [r | e]; [| now rewrite C].
    destruct (reached_the_end r) eqn:Hend.
    { rewrite C. right; right. split; [exact Hpos |]. split; [reflexivity |].
      exists (step_of_response (currentUrl v) r).
      cbn [with_result issued result steps add_step].
      now rewrite last_step_app, terminal_step_of_response. }
    destruct (URL_href _ _) as [href |]; [| now rewrite C].
    destruct (visited _ href); rewrite C.
    { right; left. reflexivity. }
    specialize (IH opts (advance href v)
      (with_result (add_step (step_of_response (currentUrl v) r))
         (issued (request_to opts (currentUrl v)) s))).
    destruct (while_loop fuel opts _ _) as [[v' | e |] s']; try exact I.
    exact IH.
Qed.

(** With [followRedirects] on, a result without [error] ends in a
    terminal response, or the merged [maxRedirects] is [undefined] and
    the bound of 20 was used up: a repeat and a fault leave their text in
    [error], and so does a used-up bound when the merged option is a
    number. *)
Lemma checkUrl_no_error_is_terminal u options s res s' :
  followRedirects (mergeOptions defaultOptions options) = Some true ->
  checkUrl u options s = (Ret res, s') ->
  error res = None ->
  (exists st, last_step (steps res) = Some st /\ terminal_step st = true)
  \/ (maxRedirects (mergeOptions defaultOptions options) = None
      /\ redirectCount res = 20).
Proof.
  intros Hfollow Hrun Hnone.
  set (opts := mergeOptions defaultOptions options).
  set (m := initial_maxRedirects (maxRedirects opts)).
  assert (Hcaught : forall e s1,
            checkUrl u options s = checkUrl_catch u (start_time clock s) e s1 ->
            False).
  { intros e s1 Heq.
    destruct (checkUrl_catch_returns u (start_time clock s) e s1)
      as (res1 & s1' & Hrun1 & _ & _ & Herr & _).
    rewrite Heq, Hrun1 in Hrun. inversion Hrun; subst res1 s1'. congruence. }
  destruct (invalid_url u) eqn:Hvalid.
  { exfalso. eapply Hcaught. rewrite checkUrl_unfold.
    unfold try_catch, Tracer.checkUrl_try. rewrite Hvalid. reflexivity. }
  pose proof (while_loop_outcome (Z.to_nat m) opts (mkLoop u 0 m) (started u s)) as O.
  pose proof (while_loop_bounds (Z.to_nat m) opts (mkLoop u 0 m) (started u s)) as B.
  cbn [loop_maxRedirects loop_redirectCount started result steps requests length
       error] in O, B.
  destruct (while_loop (Z.to_nat m) opts _ _) as [[v | e |] s1] eqn:Hloop.
  - destruct (last_step (steps (result s1))) as [st |] eqn:Hlast.
    + destruct (checkUrl_after_loop u options s v s1 st Hvalid Hfollow Hloop Hlast)
        as (res1 & s2 & Hrun1 & _ & Hsteps & Hcount & _ & _ & Herr).
      rewrite Hrun1 in Hrun. inversion Hrun; subst res1 s2.
      rewrite Hsteps. fold opts in Herr.
      destruct O as [Hused | [Hcirc | (Hleft & Hsame & Hterm)]].
      * destruct (Z.lt_ge_cases 0 m) as [Hpos | Hneg].
        -- specialize (B ltac:(lia) eq_refl).
           destruct (maxRedirects opts) as [limit |] eqn:Hlimit.
           ++ exfalso.
              assert (Hreach : count_reaches m (Some limit) = true).
              { apply (count_reaches_initial (Some limit));
                  [discriminate | exact Hpos]. }
              replace (loop_maxRedirects v) with 0 in Herr by lia.
              replace (loop_redirectCount v) with m in Herr by lia.
              rewrite Hreach in Herr. cbn in Herr. congruence.
           ++ right. split; [reflexivity |]. rewrite Hcount.
              change m with 20 in B. lia.
        -- exfalso. rewrite while_loop_done in Hloop by (cbn; lia).
           inversion Hloop; subst v s1. discriminate.
      * exfalso. rewrite Hcirc in Herr.
        destruct (_ && _) in Herr; congruence.
      * left. now rewrite Hlast.
    + exfalso.
      destruct (checkUrl_after_loop_none u options s v s1 Hvalid Hfollow Hloop Hlast)
        as (s1' & Heq & _).
      eapply Hcaught. exact Heq.
  - exfalso. eapply Hcaught.
    exact (checkUrl_loop_throws u options s e s1 Hvalid Hfollow Hloop).
  - exfalso. apply (while_loop_ends (Z.to_nat m) opts (mkLoop u 0 m) (started u s)).
    + cbn. lia.
    + now rewrite Hloop.
Qed.

(** X21: for every URL string, options, network and state, [checkUrl]
    returns a result: it neither throws nor runs on.  An invalid URL
    gives the error text and no step; whatever the [try] block throws
    becomes the [error] text, with the steps recorded before it (plus
    the step of a response the fault carried); and when redirects are
    followed, a result without [error] ends in a terminal response,
    unless the merged [maxRedirects] is [undefined] and the bound of 20
    was used up. *)
Theorem checkUrl_always_returns (u : string) (options : UrlCheckOptions) (s : State) :
  exists res s',
    checkUrl u options s = (Ret res, s')
    /\ (invalid_url u = true ->
        error res
        = Some "Invalid URL. Please include the protocol (http:// or https://)"
        /\ steps res = [] /\ finalUrl res = u)
    /\ (forall e s1,
          checkUrl_try u (mergeOptions defaultOptions options)
                       (start_time clock s) (started u s) = (Throw e, s1) ->
          error res = Some (thrown_message e)
          /\ steps res = (steps (result s1) ++ thrown_steps e u)%list)
    /\ (followRedirects (mergeOptions defaultOptions options) = Some true ->
        error res = None ->
        (exists st, last_step (steps res) = Some st /\ terminal_step st = true)
        \/ (maxRedirects (mergeOptions defaultOptions options) = None
            /\ redirectCount res = 20)).
Proof.
  pose proof (checkUrl_no_error_is_terminal u options s) as Hterminal.
  rewrite checkUrl_unfold in *. unfold try_catch in *.
  destruct (checkUrl_try _ _ _ _) as [[res | e |] s1] eqn:E.
  - exists res, s1. split; [reflexivity |]. split; [| split].
    + intros Hinv. unfold Tracer.checkUrl_try in E. rewrite Hinv in E.
      discriminate.
    + intros e s1' H. discriminate.
    + intros Hfollow. now apply (Hterminal res s1).
  - destruct (checkUrl_catch_returns u (start_time clock s) e s1)
      as (res & s' & Hrun & _ & _ & Herr & Hsteps & Hfinal & _).
    exists res, s'. split; [exact Hrun |]. split; [| split].
    + intros Hinv. unfold Tracer.checkUrl_try in E. rewrite Hinv in E.
      inversion E; subst e s1. rewrite Hfinal, Hsteps, Herr.
      repeat split; reflexivity.
    + intros e' s1' H. inversion H; subst e' s1'. now split.
    + intros _ Hnone. congruence.
  - exfalso.
    apply (checkUrl_try_ends u (mergeOptions defaultOptions options)
                             (start_time clock s) (started u s)).
    now rewrite E.
Qed.


(** C8: with [followRedirects] false, a valid URL whose request is
    answered gives one request and one step with the response's status,
    [redirectCount] 0, no [error] and [finalUrl] the input URL, whatever
    the status and the headers of the response. *)
Theorem checkUrl_without_following
  (u : string) (options : UrlCheckOptions) (s : State) (r : Response) :
  invalid_url u = false ->
  followRedirects options = Some false ->
  net (requests s) (request_to (mergeOptions defaultOptions options) u) = inl r ->
  exists res s',
    checkUrl u options s = (Ret res, s')
    /\ requests s'
       = (requests s ++ [request_to (mergeOptions defaultOptions options) u])%list
    /\ steps res = [step_of_response u r]
    /\ map statusCode (steps res) = [status r]
    /\ redirectCount res = 0
    /\ error res = None
    /\ finalUrl res = u
    /\ initialUrl res = u.
Proof.
  intros Hvalid Hfollow Hnet.
  rewrite checkUrl_unfold.
  unfold try_catch, Tracer.checkUrl_try. rewrite Hvalid.
  assert (Hf : followRedirects (mergeOptions defaultOptions options) = Some false)
    by now apply followRedirects_merged.
  rewrite Hf. cbn [not_following negb]. unfold bind at 1. unfold axios_get.
  change (requests (started u s)) with (requests s). rewrite Hnet.
  eexists; eexists. split; [reflexivity |].
  repeat split; reflexivity.
Qed.

(** C1, as the code has it: on a circular chain A -> B -> A (A and B
    distinct) with [followRedirects] on and a bound of at least 3,
    [checkUrl] issues two requests and records two steps, for A and
    for B, sets [error] to "Circular redirect detected", and returns
    [redirectCount] 2: the redirect from B back to A is counted before
    the repeat is noticed. *)
Theorem checkUrl_circular_chain
  (a b : string) (options : UrlCheckOptions) (s : State) (ra rb : Response) :
  let opts := mergeOptions defaultOptions options in
  a <> b ->
  invalid_url a = false ->
  followRedirects opts = Some true ->
  3 <= initial_maxRedirects (maxRedirects opts) ->
  net (requests s) (request_to opts a) = inl ra ->
  redirects_to URL_href ra a b ->
  net (requests s ++ [request_to opts a])%list (request_to opts b) = inl rb ->
  redirects_to URL_href rb b a ->
  exists res s',
    checkUrl a options s = (Ret res, s')
    /\ requests s' = (requests s ++ [request_to opts a; request_to opts b])%list
    /\ steps res = [step_of_response a ra; step_of_response b rb]
    /\ map url (steps res) = [a; b]
    /\ error res = Some "Circular redirect detected"
    /\ redirectCount res = 2
    /\ finalUrl res = b.
Proof.
  intros opts Hab Hvalid Hfollow Hm Hneta Hreda Hnetb Hredb.
  destruct (circular_chain a b options s ra rb Hab Hvalid Hfollow
              ltac:(fold opts; lia) Hneta Hreda Hnetb Hredb)
    as (res & s' & Hrun & Hreq & Hsteps & Hcount & Hfinal & Herr).
  exists res, s'. split; [exact Hrun |].
  rewrite Hsteps, Herr. repeat split; try assumption.
  fold opts. destruct (Z.eqb_spec (initial_maxRedirects (maxRedirects opts)) 2);
    [lia | reflexivity].
Qed.

(** C6, what the code does on the failing input: when the repeat is
    noticed on the last permitted redirect (the option is 2 and the
    chain is A -> B -> A), the text set by the loop is replaced after
    the loop, and the result carries the limit text. *)
Theorem checkUrl_circular_on_last_redirect
  (a b : string) (options : UrlCheckOptions) (s : State) (ra rb : Response) :
  let opts := mergeOptions defaultOptions options in
  a <> b ->
  invalid_url a = false ->
  followRedirects opts = Some true ->
  maxRedirects options = Some 2 ->
  net (requests s) (request_to opts a) = inl ra ->
  redirects_to URL_href ra a b ->
  net (requests s ++ [request_to opts a])%list (request_to opts b) = inl rb ->
  redirects_to URL_href rb b a ->
  exists res s',
    checkUrl a options s = (Ret res, s')
    /\ map url (steps res) = [a; b]
    /\ redirectCount res = 2
    /\ error res = Some "Maximum number of redirects (2) reached".
Proof.
  intros opts Hab Hvalid Hfollow Hmax Hneta Hreda Hnetb Hredb.
  assert (Hopts : maxRedirects opts = Some 2) by now apply maxRedirects_merged.
  destruct (circular_chain a b options s ra rb Hab Hvalid Hfollow
              ltac:(fold opts; rewrite Hopts; cbn; lia) Hneta Hreda Hnetb Hredb)
    as (res & s' & Hrun & Hreq & Hsteps & Hcount & Hfinal & Herr).
  exists res, s'. split; [exact Hrun |].
  rewrite Hsteps, Herr. fold opts. unfold limit_message. rewrite Hopts.
  repeat split; assumption.
Qed.

(** C3, what the code does on the failing input: A redirects to B and
    the request to B fails with no response.  One redirect was followed
    (the request to B was issued), yet the [catch] block derives
    [redirectCount] from the one recorded step and returns 0. *)
Theorem checkUrl_fault_after_redirect
  (a b : string) (options : UrlCheckOptions) (s : State) (ra : Response)
  (e : Thrown) :
  let opts := mergeOptions defaultOptions options in
  a <> b ->
  invalid_url a = false ->
  followRedirects opts = Some true ->
  2 <= initial_maxRedirects (maxRedirects opts) ->
  net (requests s) (request_to opts a) = inl ra ->
  redirects_to URL_href ra a b ->
  net (requests s ++ [request_to opts a])%list (request_to opts b) = inr e ->
  thrown_steps e a = [] ->
  exists res s',
    checkUrl a options s = (Ret res, s')
    /\ requests s' = (requests s ++ [request_to opts a; request_to opts b])%list
    /\ steps res = [step_of_response a ra]
    /\ error res = Some (thrown_message e)
    /\ redirectCount res = 0
    /\ redirectCount res = Z.of_nat (length (steps res)) - 1.
Proof.
  intros opts Hab Hvalid Hfollow Hm Hneta Hreda Hnetb Hnone.
  set (m := initial_maxRedirects (maxRedirects opts)) in *.
  assert (Hloop :
    while_loop (Z.to_nat m) opts (mkLoop a 0 m) (started a s)
    = (Throw e,
       issued (request_to opts b)
         (with_result (add_step (step_of_response a ra))
            (issued (request_to opts a) (started a s))))).
  { destruct (Z.to_nat m) as [| [| fuel]] eqn:Efuel; try lia.
    rewrite while_loop_step by (cbn; lia).
    rewrite (loop_body_redirect opts _ _ ra b); try assumption.
    2:{ cbn. rewrite orb_false_r. now apply String.eqb_neq. }
    rewrite while_loop_step by (cbn; lia).
    rewrite (loop_body_fault opts _ _ e); [reflexivity | assumption]. }
  rewrite (checkUrl_loop_throws a options s e _ Hvalid Hfollow Hloop).
  destruct (checkUrl_catch_returns a (start_time clock s) e
              (issued (request_to opts b)
                 (with_result (add_step (step_of_response a ra))
                    (issued (request_to opts a) (started a s)))))
    as (res & s' & Hrun & _ & Hreq & Herr & Hsteps & _ & Hcount).
  exists res, s'. split; [exact Hrun |].
  rewrite Hcount, Hsteps, Hreq, Herr, Hnone. cbn. rewrite <- app_assoc.
  repeat split.
Qed.

(** C2, as the code has it: with [maxRedirects] 3, a URL whose every
    response redirects to a new URL is followed for three requests;
    [checkUrl] records 3 steps (the target of the third redirect is
    never requested), returns [redirectCount] 3 and sets [error] to
    "Maximum number of redirects (3) reached". *)
Theorem checkUrl_limit_three
  (options : UrlCheckOptions) (s : State)
  (chain : nat -> string) (resp : nat -> Response) :
  let opts := mergeOptions defaultOptions options in
  invalid_url (chain O) = false ->
  followRedirects opts = Some true ->
  maxRedirects options = Some 3 ->
  follows_chain net URL_href opts (requests s) chain resp 3 ->
  exists res s',
    checkUrl (chain O) options s = (Ret res, s')
    /\ requests s' = (requests s ++ chain_requests opts chain 3)%list
    /\ steps res = chain_steps chain resp 3
    /\ length (steps res) = 3%nat
    /\ redirectCount res = 3
    /\ finalUrl res = chain 2%nat
    /\ error res = Some "Maximum number of redirects (3) reached".
Proof.
  intros opts Hvalid Hfollow Hmax Hchain.
  assert (Hopts : maxRedirects opts = Some 3) by now apply maxRedirects_merged.
  destruct (checkUrl_exhausts_limit options s chain resp 2 Hvalid Hfollow
              ltac:(fold opts; now rewrite Hopts) Hchain)
    as (res & s' & Hrun & Hreq & Hsteps & Hcount & Hfinal & Herr).
  exists res, s'. split; [exact Hrun |].
  rewrite Hsteps, Herr, chain_steps_length. fold opts.
  unfold limit_message. rewrite Hopts.
  repeat split; assumption.
Qed.

(** C10: with [maxRedirects] 0 and [followRedirects] on, the bound of
    the loop is 20.  Whatever the network does, at most 20 requests are
    issued, at most 20 steps recorded and at most 20 redirects counted,
    and a result that counts 20 redirects carries the limit text naming
    0.  On a chain of 20 redirects to new URLs all 20 are followed. *)
Theorem checkUrl_maxRedirects_zero
  (u : string) (options : UrlCheckOptions) (s : State) :
  let opts := mergeOptions defaultOptions options in
  maxRedirects options = Some 0 ->
  followRedirects opts = Some true ->
  initial_maxRedirects (maxRedirects opts) = 20
  /\ (exists res s',
        checkUrl u options s = (Ret res, s')
        /\ 0 <= redirectCount res <= 20
        /\ (length (steps res) <= 20)%nat
        /\ (length (requests s') <= length (requests s) + 20)%nat
        /\ (redirectCount res = 20 ->
            error res = Some "Maximum number of redirects (0) reached"))
  /\ (forall chain resp,
        chain O = u ->
        invalid_url u = false ->
        follows_chain net URL_href opts (requests s) chain resp 20 ->
        exists res s',
          checkUrl u options s = (Ret res, s')
          /\ requests s' = (requests s ++ chain_requests opts chain 20)%list
          /\ steps res = chain_steps chain resp 20
          /\ redirectCount res = 20
          /\ error res = Some "Maximum number of redirects (0) reached").
Proof.
  intros opts Hmax Hfollow.
  assert (Hopts : maxRedirects opts = Some 0) by now apply maxRedirects_merged.
  assert (Hbound : initial_maxRedirects (maxRedirects opts) = 20)
    by now rewrite Hopts.
  split; [exact Hbound |]. split.
  - destruct (checkUrl_bounded u options s Hfollow
                ltac:(fold opts; rewrite Hbound; lia))
      as (res & s' & Hrun & Hcount & Hsteps & Hreq & Hall).
    fold opts in Hcount, Hsteps, Hreq, Hall. rewrite Hbound in *.
    unfold limit_message in Hall. rewrite Hopts in Hall.
    exists res, s'. split; [exact Hrun |].
    repeat split; try lia. intros H20. now apply Hall.
  - intros chain resp Hstart Hvalid Hchain. subst u.
    destruct (checkUrl_exhausts_limit options s chain resp 19 Hvalid Hfollow
                ltac:(fold opts; now rewrite Hbound) Hchain)
      as (res & s' & Hrun & Hreq & Hsteps & Hcount & Hfinal & Herr).
    exists res, s'. split; [exact Hrun |].
    rewrite Herr. fold opts. unfold limit_message. rewrite Hopts.
    repeat split; assumption.
Qed.

(** [checkUrl] always returns. *)
Lemma checkUrl_returns u options s :
  exists res s', checkUrl u options s = (Ret res, s').
Proof.
  rewrite checkUrl_unfold. unfold try_catch.
  destruct (checkUrl_try _ _ _ _) as [[res | e |] s1] eqn:E.
  - now exists res, s1.
  - destruct (checkUrl_catch_returns u (start_time clock s) e s1)
      as (res & s' & Hrun & _).
    now exists res, s'.
  - exfalso.
    apply (checkUrl_try_ends u (mergeOptions defaultOptions options)
                             (start_time clock s) (started u s)).
    now rewrite E.
Qed.

End World.

End TracerFacts.

(** *** The concrete worlds *)

Module ExampleFacts.

Import Tracer Examples.

Lemma length_append (s1 s2 : string) :
  String.length (s1 ++ s2) = (String.length s1 + String.length s2)%nat.
Proof. induction s1 as [| c s1 IH]; cbn; [reflexivity | now rewrite IH]. Qed.

Lemma fresh_chain_length i :
  String.length (fresh_chain i) = (String.length urlA + i)%nat.
Proof.
  induction i as [| i IH]; cbn [fresh_chain].
  - now rewrite Nat.add_0_r.
  - rewrite length_append, IH. cbn. lia.
Qed.

Lemma fresh_chain_truthy i : truthy_string (fresh_chain i) = true.
Proof.
  pose proof (fresh_chain_length i) as H.
  destruct (fresh_chain i); [cbn in H; lia | reflexivity].
Qed.

(** [net_fresh] answers every URL of [fresh_chain] with a redirect to
    the next one, which is longer than all the URLs before it. *)
Lemma net_fresh_follows_chain opts log n :
  follows_chain net_fresh href_absolute opts log fresh_chain
                (fun i => found (fresh_chain (S i))) n.
Proof.
  intros i _. split; [reflexivity |]. split.
  - split; [cbn; lia |].
    exists (fresh_chain (S i)). repeat split. apply fresh_chain_truthy.
  - intros j Hj Heq. apply (f_equal String.length) in Heq.
    rewrite !fresh_chain_length in Heq. lia.
Qed.

End ExampleFacts.

Module TracerWitnesses.

Import Tracer Examples TracerFacts.

Local Abbreviation checkUrl_circular :=
  (checkUrl net_circular href_absolute clock_ticks).
Local Abbreviation checkUrl_fresh :=
  (checkUrl net_fresh href_absolute clock_ticks).

Lemma found_redirects_to (base target : string) :
  truthy_string target = true ->
  redirects_to href_absolute (found target) base target.
Proof.
  intros H. split; [cbn; lia |]. exists target. repeat split. exact H.
Defined.

(** The circular chain of [net_circular], with the default options. *)
Lemma checkUrl_circular_chain_witness :
  exists res s',
    checkUrl_circular urlA noOptions state0 = (Ret res, s')
    /\ requests s'
       = ([] ++ [request_to (mergeOptions defaultOptions noOptions) urlA;
                 request_to (mergeOptions defaultOptions noOptions) urlB])%list
    /\ steps res = [step_of_response urlA (found urlB);
                    step_of_response urlB (found urlA)]
    /\ map url (steps res) = [urlA; urlB]
    /\ error res = Some "Circular redirect detected"
    /\ redirectCount res = 2
    /\ finalUrl res = urlB.
Proof.
  apply (checkUrl_circular_chain net_circular href_absolute clock_ticks
           urlA urlB noOptions state0 (found urlB) (found urlA)).
  - discriminate.
  - reflexivity.
  - reflexivity.
  - vm_compute. discriminate.
  - reflexivity.
  - apply found_redirects_to. reflexivity.
  - reflexivity.
  - apply found_redirects_to. reflexivity.
Defined.

(** C1 fails as stated: on the chain A -> B -> A the two steps and the
    error text are as claimed, but [redirectCount] is 2, not 1. *)
Lemma circular_chain_counts_two_redirects :
  exists res s',
    checkUrl_circular urlA noOptions state0 = (Ret res, s')
    /\ map url (steps res) = [urlA; urlB]
    /\ error res = Some "Circular redirect detected"
    /\ redirectCount res = 2
    /\ redirectCount res <> 1.
Proof.
  eexists; eexists. split; [vm_compute; reflexivity |].
  repeat split. discriminate.
Qed.

(** The same chain with [maxRedirects] 2. *)
Lemma checkUrl_circular_on_last_redirect_witness :
  exists res s',
    checkUrl_circular urlA (mkOptions None None None (Some 2)) state0
    = (Ret res, s')
    /\ map url (steps res) = [urlA; urlB]
    /\ redirectCount res = 2
    /\ error res = Some "Maximum number of redirects (2) reached".
Proof.
  apply (checkUrl_circular_on_last_redirect net_circular href_absolute clock_ticks
           urlA urlB (mkOptions None None None (Some 2)) state0
           (found urlB) (found urlA)).
  - discriminate.
  - reflexivity.
  - reflexivity.
  - reflexivity.
  - reflexivity.
  - apply found_redirects_to. reflexivity.
  - reflexivity.
  - apply found_redirects_to. reflexivity.
Defined.

(** A redirects to B and the request to B times out. *)
Lemma checkUrl_fault_after_redirect_witness :
  exists res s',
    checkUrl net_fault href_absolute clock_ticks urlA noOptions state0
    = (Ret res, s')
    /\ requests s'
       = ([] ++ [request_to (mergeOptions defaultOptions noOptions) urlA;
                 request_to (mergeOptions defaultOptions noOptions) urlB])%list
    /\ steps res = [step_of_response urlA (found urlB)]
    /\ error res = Some "timeout of 10000ms exceeded"
    /\ redirectCount res = 0
    /\ redirectCount res = Z.of_nat (length (steps res)) - 1.
Proof.
  apply (checkUrl_fault_after_redirect net_fault href_absolute clock_ticks
           urlA urlB noOptions state0 (found urlB)
           (AxiosError "timeout of 10000ms exceeded" (Some urlB) None)).
  - discriminate.
  - reflexivity.
  - reflexivity.
  - vm_compute. discriminate.
  - reflexivity.
  - apply found_redirects_to. reflexivity.
  - reflexivity.
  - reflexivity.
Defined.

(** The chain of [net_fresh] with [maxRedirects] 3. *)
Lemma checkUrl_limit_three_witness :
  exists res s',
    checkUrl_fresh (fresh_chain 0) (mkOptions None None None (Some 3)) state0
    = (Ret res, s')
    /\ requests s'
       = ([] ++ chain_requests
                  (mergeOptions defaultOptions (mkOptions None None None (Some 3)))
                  fresh_chain 3)%list
    /\ steps res = chain_steps fresh_chain (fun i => found (fresh_chain (S i))) 3
    /\ length (steps res) = 3%nat
    /\ redirectCount res = 3
    /\ finalUrl res = fresh_chain 2
    /\ error res = Some "Maximum number of redirects (3) reached".
Proof.
  apply (checkUrl_limit_three net_fresh href_absolute clock_ticks
           (mkOptions None None None (Some 3)) state0 fresh_chain
           (fun i => found (fresh_chain (S i)))).
  - reflexivity.
  - reflexivity.
  - reflexivity.
  - intros i Hi. split; [reflexivity |]. split.
    + apply found_redirects_to.
      destruct i as [| [| [| i]]]; [reflexivity | reflexivity | reflexivity | lia].
    + intros j Hj.
      destruct i as [| [| [| i]]]; [| | | lia];
        destruct j as [| [| [| j]]]; try lia; vm_compute; discriminate.
Defined.

(** C2 fails as stated: with [maxRedirects] 3 the trace of new URLs has
    3 steps, not 4. *)
Lemma limit_three_records_three_steps :
  exists res s',
    checkUrl_fresh urlA (mkOptions None None None (Some 3)) state0 = (Ret res, s')
    /\ redirectCount res = 3
    /\ error res = Some "Maximum number of redirects (3) reached"
    /\ length (steps res) = 3%nat
    /\ length (steps res) <> 4%nat.
Proof.
  eexists; eexists. split; [vm_compute; reflexivity |].
  repeat split. discriminate.
Qed.

(** [net_found] answers 302 with a [Location]; without following there
    is one step, with status 302. *)
Lemma checkUrl_without_following_witness :
  exists res s',
    checkUrl net_found href_absolute clock_ticks urlA
             (mkOptions None None (Some false) None) state0 = (Ret res, s')
    /\ requests s'
       = ([] ++ [request_to (mergeOptions defaultOptions
                               (mkOptions None None (Some false) None)) urlA])%list
    /\ steps res = [step_of_response urlA (found urlB)]
    /\ map statusCode (steps res) = [302]
    /\ redirectCount res = 0
    /\ error res = None
    /\ finalUrl res = urlA
    /\ initialUrl res = urlA.
Proof.
  apply (checkUrl_without_following net_found href_absolute clock_ticks
           urlA (mkOptions None None (Some false) None) state0 (found urlB));
    reflexivity.
Defined.

(** [maxRedirects] 0 on the chain of [net_fresh]: 20 redirects are
    followed and the text names 0. *)
Lemma checkUrl_maxRedirects_zero_witness :
  exists res s',
    checkUrl_fresh urlA (mkOptions None None None (Some 0)) state0 = (Ret res, s')
    /\ requests s'
       = ([] ++ chain_requests
                  (mergeOptions defaultOptions (mkOptions None None None (Some 0)))
                  fresh_chain 20)%list
    /\ steps res = chain_steps fresh_chain (fun i => found (fresh_chain (S i))) 20
    /\ redirectCount res = 20
    /\ error res = Some "Maximum number of redirects (0) reached".
Proof.
  destruct (checkUrl_maxRedirects_zero net_fresh href_absolute clock_ticks
              urlA (mkOptions None None None (Some 0)) state0)
    as (_ & _ & Hchain).
  - reflexivity.
  - reflexivity.
  - apply (Hchain fresh_chain (fun i => found (fresh_chain (S i)))).
    + reflexivity.
    + reflexivity.
    + apply ExampleFacts.net_fresh_follows_chain.
Defined.


(** A negative [maxRedirects] is kept as it is; the loop does not run,
    reading the last step throws, and the [catch] block returns. *)
Example checkUrl_negative_limit :
  exists res s',
    checkUrl net_found href_absolute clock_ticks urlA
             (mkOptions None None None (Some (-1))) state0 = (Ret res, s')
    /\ steps res = []
    /\ requests s' = []
    /\ error res = Some "Cannot read properties of undefined (reading 'url')".
Proof.
  eexists; eexists. split; [vm_compute; reflexivity |].
  repeat split.
Qed.

End TracerWitnesses.

(* ------------------------------------------------------------------ *)
(** * Properties of the API route *)

Module RouteFacts.

Import Tracer Route TracerFacts.

Section World.

Variable net : list Request -> Request -> Response + Thrown.
Variable URL_href : string -> string -> option string.
Variable clock : nat -> list Request -> Z.

Local Abbreviation checkUrl := (checkUrl net URL_href clock).
Local Abbreviation POST := (POST net URL_href clock).

(** A body with a non-empty [url]: the trace runs and its result is the
    payload, with status 200. *)
Lemma POST_traces body u s :
  body_url body = Some u ->
  truthy_string u = true ->
  exists res s',
    checkUrl u (options_of body) s = (Ret res, s')
    /\ POST (inl body) s = (Ret (mkNextResponse 200 (ResultPayload res)), s').
Proof.
  intros Hurl Htruthy.
  destruct (checkUrl_returns net URL_href clock u (options_of body) s)
    as (res & s' & Hrun).
  exists res, s'. split; [exact Hrun |].
  unfold Route.POST, try_catch, bind. cbn [request_json ret].
  rewrite Hurl, Htruthy. now rewrite Hrun.
Qed.

(** A body whose [url] is missing or empty: status 400, no request. *)
Lemma POST_url_required body s :
  truthy (body_url body) = false ->
  POST (inl body) s
  = (Ret (mkNextResponse 400 (ErrorPayload "URL is required")), s).
Proof.
  intros H. unfold Route.POST, try_catch, bind. cbn [request_json ret].
  destruct (body_url body) as [u |]; [| reflexivity].
  cbn in H. now rewrite H.
Qed.

(** Reading the body throws: status 500 with the message. *)
Lemma POST_throws e s :
  POST (inr e) s
  = (Ret (mkNextResponse 500 (ErrorPayload (thrown_message e))), s).
Proof. reflexivity. Qed.

Lemma truthy_false (o : option string) :
  truthy o = false <-> o = None \/ o = Some EmptyString.
Proof.
  destruct o as [[| c rest] |]; cbn; split; intros H;
    try reflexivity; try discriminate; auto;
    destruct H as [H | H]; discriminate.
Qed.

(** C9, as the code has it: the route always answers.  The status is
    400 exactly when the body was read and its [url] is missing or the
    empty string; it is 500 exactly when reading the body threw; and
    for a body with a non-empty [url] it is 200 with the result of
    [checkUrl] as payload, whether or not that result has its [error]
    set. *)
Theorem POST_status (request : Body + Thrown) (s : State) :
  exists resp s',
    POST request s = (Ret resp, s')
    /\ (http_status resp = 400 <->
        exists body, request = inl body
                     /\ (body_url body = None \/ body_url body = Some EmptyString))
    /\ (http_status resp = 500 <-> exists e, request = inr e)
    /\ (forall body u,
          request = inl body ->
          body_url body = Some u ->
          truthy_string u = true ->
          exists res,
            checkUrl u (options_of body) s = (Ret res, s')
            /\ resp = mkNextResponse 200 (ResultPayload res)).
Proof.
  destruct request as [body | e].
  - destruct (truthy (body_url body)) eqn:Htruthy.
    + destruct (body_url body) as [u |] eqn:Hurl; [| discriminate].
      cbn in Htruthy.
      destruct (POST_traces body u s Hurl Htruthy) as (res & s' & Hrun & Hpost).
      exists (mkNextResponse 200 (ResultPayload res)), s'.
      split; [exact Hpost |]. cbn [http_status]. repeat split.
      * discriminate.
      * intros (body' & Hbody & Hfalsy). inversion Hbody; subst body'.
        apply truthy_false in Hfalsy. rewrite Hurl in Hfalsy. cbn in Hfalsy.
        congruence.
      * discriminate.
      * intros (e & He). discriminate.
      * intros body' u' Hbody Hurl' _. inversion Hbody; subst body'.
        rewrite Hurl in Hurl'. inversion Hurl'; subst u'. now exists res.
    + exists (mkNextResponse 400 (ErrorPayload "URL is required")), s.
      split; [now apply POST_url_required |]. cbn [http_status]. repeat split.
      * intros _. exists body. split; [reflexivity |]. now apply truthy_false.
      * discriminate.
      * intros (e & He). discriminate.
      * intros body' u Hbody Hurl Hu. inversion Hbody; subst body'.
        rewrite Hurl in Htruthy. cbn in Htruthy. congruence.
  - exists (mkNextResponse 500 (ErrorPayload (thrown_message e))), s.
    split; [apply POST_throws |]. cbn [http_status]. repeat split.
    + discriminate.
    + intros (body & Hbody & _). discriminate.
    + intros _. now exists e.
    + intros body u Hbody. discriminate.
Qed.

End World.

Import Examples.

(** C9 fails as stated: a body whose [url] field is present but empty
    is answered with status 400. *)
Lemma POST_empty_url_is_400 :
  body_url (mkBody (Some EmptyString) None) <> None
  /\ Route.POST net_found href_absolute clock_ticks
       (inl (mkBody (Some EmptyString) None)) state0
     = (Ret (mkNextResponse 400 (ErrorPayload "URL is required")), state0).
Proof. split; [discriminate | reflexivity]. Qed.

(** A completed trace whose [error] is set is answered with status 200. *)
Example POST_invalid_url_is_200 :
  exists res s',
    Route.POST net_found href_absolute clock_ticks
      (inl (mkBody (Some "ftp://a.example/") None)) state0
    = (Ret (mkNextResponse 200 (ResultPayload res)), s')
    /\ error res
       = Some "Invalid URL. Please include the protocol (http:// or https://)".
Proof.
  eexists; eexists. split; [vm_compute; reflexivity | reflexivity].
Qed.

End RouteFacts.

(* ------------------------------------------------------------------ *)
(** * The shape of the traces of [checkUrl] *)

(** Split a conjunction into its parts, and nothing else. *)
Ltac conjuncts := repeat match goal with |- _ /\ _ => split end.

Module TraceFacts.

Import Tracer TraceShape TracerFacts.

Section World.

Variable net : list Request -> Request -> Response + Thrown.
Variable URL_href : string -> string -> option string.
Variable clock : nat -> list Request -> Z.

Local Abbreviation loop_body := (loop_body net URL_href).
Local Abbreviation while_loop := (while_loop net URL_href).
Local Abbreviation checkUrl_try := (checkUrl_try net URL_href clock).
Local Abbreviation checkUrl_catch := (checkUrl_catch clock).
Local Abbreviation checkUrl := (checkUrl net URL_href clock).
Local Abbreviation leads_to := (leads_to URL_href).
Local Abbreviation linked := (linked URL_href).

Lemma last_step_nil : last_step [] = None.
Proof. reflexivity. Qed.

Lemma last_step_cons st l :
  last_step (st :: l) = match last_step l with
                        | Some last => Some last
                        | None => Some st
                        end.
Proof.
  revert st. induction l as [| x l IH]; intros st; [reflexivity |].
  change (last_step (st :: x :: l)) with (last_step (x :: l)).
  rewrite (IH x). destruct (last_step l); reflexivity.
Qed.

Lemma redirects_before_last_snoc l st :
  forallb followed l = true -> redirects_before_last (l ++ [st]) = true.
Proof.
  induction l as [| x l IH]; intros H; [reflexivity |].
  cbn [forallb] in H. apply andb_prop in H as [Hx Hl].
  cbn [app redirects_before_last].
  destruct (l ++ [st])%list as [| y rest] eqn:E.
  - destruct l; discriminate.
  - now rewrite Hx, IH.
Qed.

Lemma redirects_before_last_all l :
  forallb followed l = true -> redirects_before_last l = true.
Proof.
  induction l as [| x l IH]; intros H; [reflexivity |].
  cbn [forallb] in H. apply andb_prop in H as [Hx Hl].
  cbn [redirects_before_last]. destruct l; [reflexivity |].
  now rewrite Hx, IH.
Qed.

Lemma forallb_snoc {A : Type} (f : A -> bool) l x :
  forallb f (l ++ [x]) = forallb f l && f x.
Proof. rewrite forallb_app. cbn. now rewrite andb_true_r. Qed.

Lemma linked_snoc l st :
  linked (l ++ [st])
  = linked l && match last_step l with
                | Some last => leads_to last (url st)
                | None => true
                end.
Proof.
  induction l as [| x l IH]; [reflexivity |].
  destruct l as [| y l].
  - cbn. now rewrite andb_true_r.
  - change (linked ((x :: y :: l) ++ [st]))
      with (leads_to x (url y) && linked ((y :: l) ++ [st])).
    rewrite IH. change (linked (x :: y :: l)) with (leads_to x (url y) && linked (y :: l)).
    rewrite (last_step_cons x (y :: l)).
    destruct (last_step (y :: l)) eqn:E.
    + now rewrite andb_assoc.
    + rewrite last_step_cons in E. destruct (last_step l); discriminate.
Qed.

Lemma visited_false_not_in l u :
  visited l u = false -> ~ In u (map url l).
Proof.
  induction l as [| x l IH]; cbn; intros H; [tauto |].
  apply orb_false_elim in H as [Hx Hl].
  intros [Heq | Hin]; [| now apply IH].
  apply String.eqb_neq in Hx. congruence.
Qed.

Lemma NoDup_snoc {A : Type} (l : list A) (x : A) :
  NoDup l -> ~ In x l -> NoDup (l ++ [x]).
Proof.
  intros Hl Hx. apply NoDup_app; [exact Hl | repeat constructor; tauto | ].
  intros a Ha [<- | []]. contradiction.
Qed.

Lemma starts_at_snoc u l st :
  starts_at u l ->
  (l = [] -> url st = u) ->
  starts_at u (l ++ [st]).
Proof.
  intros Hl Hst x. destruct l as [| y l]; cbn.
  - intros H. inversion H; subst x. now apply Hst.
  - apply Hl.
Qed.

Lemma last_step_none l : last_step l = None -> l = [].
Proof.
  destruct l as [| x l]; [reflexivity |].
  rewrite last_step_cons. destruct (last_step l); discriminate.
Qed.

(** Recording the response to the request for [currentUrl] keeps the
    steps chained. *)
Lemma pushed_chained u v s r :
  chained URL_href u (steps (result s)) ->
  match last_step (steps (result s)) with
  | Some last => leads_to last (currentUrl v) = true
  | None => currentUrl v = u
  end ->
  visited (steps (result s)) (currentUrl v) = false ->
  chained URL_href u (steps (result s) ++ [step_of_response (currentUrl v) r]).
Proof.
  intros [Hstart Hlinked Hdistinct] Hcurrent Hfresh. constructor.
  - apply starts_at_snoc; [exact Hstart |]. intros Hnil.
    rewrite Hnil in Hcurrent. exact Hcurrent.
  - rewrite linked_snoc, Hlinked. cbn [andb step_of_response url].
    destruct (last_step (steps (result s))); [exact Hcurrent | reflexivity].
  - rewrite map_app. cbn [map step_of_response url].
    apply NoDup_snoc; [exact Hdistinct |]. now apply visited_false_not_in.
Qed.

Lemma followed_step_of_response u r :
  reached_the_end r = false -> followed (step_of_response u r) = true.
Proof.
  intros H. unfold followed. now rewrite terminal_step_of_response, H.
Qed.

Lemma requests_for_snoc opts l st :
  requests_for opts (l ++ [st])
  = (requests_for opts l ++ [request_to opts (url st)])%list.
Proof. unfold requests_for. now rewrite map_app. Qed.

(** One more followed redirect keeps the invariant of the loop. *)
Lemma loop_invariant_advance u opts log v s r href :
  loop_invariant URL_href u opts log v s ->
  reached_the_end r = false ->
  URL_href (location_text (res_location r)) (currentUrl v) = Some href ->
  visited (steps (result s) ++ [step_of_response (currentUrl v) r]) href = false ->
  loop_invariant URL_href u opts log (advance href v)
    (with_result (add_step (step_of_response (currentUrl v) r))
       (issued (request_to opts (currentUrl v)) s)).
Proof.
  intros [[Hstart Hlinked Hdistinct] Hfollowed Hcurrent Hfresh Hcount Hreq]
         Hend Hhref Hnew.
  pose proof (pushed_chained u v s r) as Hchained.
  constructor; cbn [with_result issued result steps add_step requests
                    advance currentUrl loop_redirectCount].
  - apply Hchained; [now constructor | assumption | assumption].
  - rewrite forallb_snoc, Hfollowed. now apply followed_step_of_response.
  - rewrite last_step_app. unfold TraceShape.leads_to. cbn [step_of_response location url].
    rewrite Hhref. apply String.eqb_refl.
  - exact Hnew.
  - rewrite length_app. cbn. lia.
  - rewrite Hreq, requests_for_snoc. cbn [step_of_response url].
    now rewrite app_assoc.
Qed.

(** However the loop ends, the steps it leaves are chained; when it
    returns, every step but the last is a followed redirect and every
    step was requested; when it throws, every step is a followed
    redirect. *)
Lemma while_loop_trace (fuel : nat) : forall u opts log v s,
  loop_invariant URL_href u opts log v s ->
  match while_loop fuel opts v s with
  | (Ret v', s') =>
      chained URL_href u (steps (result s'))
      /\ redirects_before_last (steps (result s')) = true
      /\ requests s' = (log ++ requests_for opts (steps (result s')))%list
      /\ initialUrl (result s') = initialUrl (result s)
      /\ loop_end s v' s'
  | (Throw e, s') =>
      chained URL_href u (steps (result s'))
      /\ forallb followed (steps (result s')) = true
      /\ error (result s') = error (result s)
      /\ initialUrl (result s') = initialUrl (result s)
      /\ loop_fault net opts log e s'
  | (Diverge, _) => True
  end.
Proof.
  induction fuel as [| fuel IH]; intros u opts log v s Hinv.
  - simpl. destruct (Z.ltb_spec 0 (loop_maxRedirects v)); [exact I |].
    destruct Hinv as [Hchained Hfollowed Hcurrent Hfresh Hcount Hreq].
    cbn. conjuncts; try assumption; try reflexivity.
    + now apply redirects_before_last_all.
    + now apply end_exhausted.
  - destruct (Z.ltb_spec 0 (loop_maxRedirects v)) as [Hpos | Hzero].
    2:{ rewrite while_loop_done by lia.
        destruct Hinv as [Hchained Hfollowed Hcurrent Hfresh Hcount Hreq].
        conjuncts; try assumption; try reflexivity.
        - now apply redirects_before_last_all.
        - now apply end_exhausted. }
    rewrite while_loop_step by lia.
    pose proof (loop_body_cases net URL_href opts v s) as C. cbv zeta in C.
    destruct (net (requests s) _) as [r | e] eqn:Hnet.
    + pose proof (pushed_chained u v s r (inv_chained _ _ _ _ _ _ Hinv)
                    (inv_current _ _ _ _ _ _ Hinv) (inv_fresh _ _ _ _ _ _ Hinv))
        as Hpushed.
      assert (Hreq1 :
        (requests s ++ [request_to opts (currentUrl v)])%list
        = (log ++ requests_for opts
                    (steps (result s) ++ [step_of_response (currentUrl v) r]))%list).
      { rewrite (inv_requests _ _ _ _ _ _ Hinv), requests_for_snoc.
        cbn [step_of_response url]. now rewrite app_assoc. }
      destruct (reached_the_end r) eqn:Hend.
      { rewrite C. cbn [with_result issued result steps add_step requests
                        initialUrl error].
        conjuncts; try assumption; try reflexivity.
        - apply redirects_before_last_snoc, (inv_followed _ _ _ _ _ _ Hinv).
        - apply (end_terminal _ _ _ (step_of_response (currentUrl v) r));
            cbn [with_result issued result steps add_step error].
          + apply last_step_app.
          + now rewrite terminal_step_of_response.
          + rewrite length_app, <- (inv_count _ _ _ _ _ _ Hinv). cbn. lia.
          + exact Hpos.
          + reflexivity. }
      assert (Hall : forallb followed
                       (steps (result s) ++ [step_of_response (currentUrl v) r])
                     = true).
      { rewrite forallb_snoc, (inv_followed _ _ _ _ _ _ Hinv).
        now apply followed_step_of_response. }
      destruct (URL_href _ _) as [href |] eqn:Hhref.
      2:{ rewrite C. cbn [with_result issued result steps add_step requests
                          initialUrl error].
          conjuncts; try assumption; try reflexivity.
          apply fault_location;
            cbn [with_result issued result steps add_step requests];
            [reflexivity | assumption |].
          intros H. apply app_eq_nil in H as [_ H]. discriminate. }
      destruct (visited _ href) eqn:Hvisited; rewrite C.
      { cbn [with_result with_error issued result steps add_step requests
             initialUrl error].
        conjuncts; try assumption; try reflexivity.
        - now apply redirects_before_last_all.
        - apply end_circular;
            cbn [with_result with_error issued result steps add_step error
                 advance loop_redirectCount].
          + reflexivity.
          + rewrite length_app, <- (inv_count _ _ _ _ _ _ Hinv). cbn. lia.
          + exact Hall.
          + intros H. apply app_eq_nil in H as [_ H]. discriminate. }
      pose proof (loop_invariant_advance u opts log v s r href Hinv Hend Hhref Hvisited)
        as Hinv1.
      specialize (IH u opts log (advance href v) _ Hinv1).
      destruct (while_loop fuel opts _ _) as [[v' | e |] s']; [| | exact I].
      * destruct IH as (H1 & H2 & H3 & H4 & H5). conjuncts; try assumption; try reflexivity.
        destruct H5 as [last Hl Ht Hc Hm He | He Hc Hf Hn | Hm Hc Hf He].
        -- now apply (end_terminal _ _ _ last).
        -- now apply end_circular.
        -- now apply end_exhausted.
      * exact IH.
    + rewrite C. cbn [issued result requests].
      destruct Hinv as [Hchained Hfollowed Hcurrent Hfresh Hcount Hreq].
      conjuncts; try assumption; try reflexivity.
      apply (fault_network _ _ _ _ _ (requests s) (request_to opts (currentUrl v)));
        cbn [issued result requests request_to req_userAgent req_timeout];
        try reflexivity; [exact Hnet |].
      now rewrite Hreq, app_assoc.
Qed.

(** *** From the loop to the result *)

(** Everything the [catch] block leaves in the result. *)
Lemma checkUrl_catch_result u t0 e s :
  exists res s',
    checkUrl_catch u t0 e s = (Ret res, s')
    /\ requests s' = requests s
    /\ initialUrl res = initialUrl (result s)
    /\ error res = Some (thrown_message e)
    /\ steps res = (steps (result s) ++ thrown_steps e u)%list
    /\ finalUrl res = match last_step (steps res) with
                      | Some st => url st
                      | None => u
                      end
    /\ redirectCount res = Z.max (Z.of_nat (length (steps res)) - 1) 0.
Proof.
  destruct e as [msg cfg [r |] | msg |];
    (eexists; eexists; split; [reflexivity |]; cbn;
     rewrite ?app_nil_r;
     conjuncts; try reflexivity;
     match goal with
     | |- context [0 <? ?x] => destruct (Z.ltb_spec 0 x); lia
     end).
Qed.

(** The facts of a trace that ended in the [catch] block, with the
    steps of the [try] block all followed redirects. *)
Lemma trace_facts_caught u opts s t0 e s1 failed res s' :
  checkUrl_catch u t0 e s1 = (Ret res, s') ->
  initialUrl (result s1) = u ->
  chained URL_href u (steps (result s1)) ->
  forallb followed (steps (result s1)) = true ->
  requests s1 = (requests s ++ requests_for opts (steps (result s1)) ++ failed)%list ->
  (length failed <= 1)%nat ->
  Forall (fun rq => req_userAgent rq = userAgent opts
                    /\ req_timeout rq = timeout opts) failed ->
  ((exists log rq, net log rq = inr e) \/ thrown_steps e u = []) ->
  trace_facts net URL_href u opts s res s'.
Proof.
  intros Hrun Hinit Hchained Hfollowed Hreq Hfailed Hmerged Hfrom.
  destruct (checkUrl_catch_result u t0 e s1)
    as (res1 & s1' & Hrun1 & Hreq1 & Hinit1 & Herr & Hsteps & Hfinal & Hcount).
  rewrite Hrun in Hrun1. inversion Hrun1; subst res1 s1'.
  constructor.
  - congruence.
  - exact Hfinal.
  - rewrite Hsteps. destruct e as [msg cfg [r |] | msg |]; cbn [thrown_steps];
      rewrite ?app_nil_r;
      first [now apply redirects_before_last_snoc
            | now apply redirects_before_last_all].
  - rewrite Hcount. lia.
  - intros Hnone. congruence.
  - exists (steps (result s1)), (thrown_steps e u), failed.
    conjuncts; try assumption.
    + apply thrown_steps_length.
    + intros Hfaults. destruct Hfrom as [(log & rq & Hnet) | Hnone];
        [exact (Hfaults log rq e Hnet u) | exact Hnone].
    + congruence.
    + intros Hnone. congruence.
Qed.

Lemma last_step_in l st : last_step l = Some st -> In st l.
Proof.
  induction l as [| x l IH]; [discriminate |].
  rewrite last_step_cons. destruct (last_step l) as [last |] eqn:E; intros H.
  - right. apply IH. exact H.
  - left. congruence.
Qed.

Lemma followed_last l st :
  forallb followed l = true -> last_step l = Some st -> terminal_step st = false.
Proof.
  intros Hall Hlast. apply last_step_in in Hlast.
  rewrite forallb_forall in Hall. specialize (Hall st Hlast).
  unfold followed in Hall. now destruct (terminal_step st).
Qed.

(** The loop starts with its invariant. *)
Lemma loop_invariant_start u opts s m :
  loop_invariant URL_href u opts (requests s) (mkLoop u 0 m) (started u s).
Proof.
  constructor; cbn; try reflexivity.
  - constructor; cbn; [intros st H; discriminate | reflexivity | constructor].
  - now rewrite app_nil_r.
Qed.

(** As [checkUrl_after_loop_none], with the [initialUrl] of the state
    handed to the [catch] block. *)
Lemma checkUrl_after_loop_empty u options s v s1 :
  let opts := mergeOptions defaultOptions options in
  let m := initial_maxRedirects (maxRedirects opts) in
  invalid_url u = false ->
  followRedirects opts = Some true ->
  while_loop (Z.to_nat m) opts (mkLoop u 0 m) (started u s) = (Ret v, s1) ->
  last_step (steps (result s1)) = None ->
  exists s1',
    checkUrl u options s
    = checkUrl_catch u (start_time clock s)
        (JsError "Cannot read properties of undefined (reading 'url')") s1'
    /\ steps (result s1') = steps (result s1)
    /\ requests s1' = requests s1
    /\ initialUrl (result s1') = initialUrl (result s1).
Proof.
  intros opts m Hvalid Hfollow Hloop Hlast.
  rewrite checkUrl_unfold. unfold try_catch, Tracer.checkUrl_try.
  rewrite Hvalid, (following_merged _ Hfollow).
  fold opts. cbv zeta. cbn [loop_maxRedirects]. fold m.
  unfold bind at 1. rewrite Hloop.
  destruct ((loop_maxRedirects v =? 0) && _);
    cbn -[last_step]; rewrite Hlast; cbn;
    (eexists; split; [reflexivity |]); conjuncts; reflexivity.
Qed.

(** Without following (the merged [followRedirects] is [false] or
    [undefined]), [checkUrl] issues one request and returns its step, or
    hands its fault to the [catch] block. *)
Lemma checkUrl_single u options s :
  let opts := mergeOptions defaultOptions options in
  invalid_url u = false ->
  not_following (followRedirects opts) = true ->
  match net (requests s) (request_to opts u) with
  | inl r =>
      checkUrl u options s
      = (Ret (mkResult u u [step_of_response u r] 0
                (Some (clock (S (clock_reads s))
                             (requests s ++ [request_to opts u])%list
                       - start_time clock s))
                None),
         mkState (mkResult u u [step_of_response u r] 0
                    (Some (clock (S (clock_reads s))
                                 (requests s ++ [request_to opts u])%list
                           - start_time clock s))
                    None)
                 (requests s ++ [request_to opts u])%list
                 (S (S (clock_reads s))))
  | inr e =>
      checkUrl u options s
      = checkUrl_catch u (start_time clock s) e
          (issued (request_to opts u) (started u s))
  end.
Proof.
  intros opts Hvalid Hf.
  destruct (net (requests s) (request_to opts u)) as [r | e] eqn:Hnet;
    rewrite checkUrl_unfold; unfold try_catch, Tracer.checkUrl_try;
    rewrite Hvalid; fold opts; rewrite Hf;
    unfold bind at 1; unfold axios_get;
    change (requests (started u s)) with (requests s);
    rewrite Hnet; reflexivity.
Qed.

(** The facts of a trace, for a valid URL with redirects followed. *)
Lemma checkUrl_trace_facts_following u options s :
  invalid_url u = false ->
  followRedirects (mergeOptions defaultOptions options) = Some true ->
  exists res s',
    checkUrl u options s = (Ret res, s')
    /\ trace_facts net URL_href u (mergeOptions defaultOptions options) s res s'.
Proof.
  intros Hvalid Hfollowing.
  set (opts := mergeOptions defaultOptions options).
  set (m := initial_maxRedirects (maxRedirects opts)).
  pose proof (while_loop_trace (Z.to_nat m) u opts (requests s) (mkLoop u 0 m)
                (started u s) (loop_invariant_start u opts s m)) as Htrace.
  destruct (while_loop (Z.to_nat m) opts _ _) as [[v | e |] s1] eqn:Hloop.
  - destruct Htrace as (Hchained & Hbefore & Hreq & Hinit & Hend).
    destruct (last_step (steps (result s1))) as [st |] eqn:Hlast.
    + destruct (checkUrl_after_loop net URL_href clock u options s v s1 st
                  Hvalid Hfollowing Hloop Hlast)
        as (res & s2 & Hrun & Hreq2 & Hsteps & Hcount & Hfinal & Hinit2 & Herr).
      exists res, s2. split; [exact Hrun |].
      constructor.
      * rewrite Hinit2, Hinit. reflexivity.
      * now rewrite Hsteps, Hlast.
      * now rewrite Hsteps.
      * rewrite Hsteps, Hcount.
        destruct Hend as [last Hl Ht Hc Hm He | He Hc Hf Hn | Hm Hc Hf He]; lia.
      * intros Hnone. rewrite Hsteps.
        split; [intros Hnil; rewrite Hnil in Hlast; discriminate |].
        destruct Hend as [last' Hl' Ht' Hc Hm He | He Hc Hf Hn | Hm Hc Hf He].
        -- left. rewrite Hcount. lia.
        -- exfalso. rewrite He in Herr. destruct (_ && _) in Herr; congruence.
        -- destruct (checkUrl_no_error_is_terminal net URL_href clock u options s
                       res s2 Hfollowing Hrun Hnone)
             as [(last & Hl & Ht) | (Hlimit & H20)].
           ++ exfalso. rewrite Hsteps in Hl.
              rewrite (followed_last _ _ Hf Hl) in Ht. discriminate.
           ++ right. conjuncts; try assumption. lia.
      * exists (steps (result s1)), [], [].
        rewrite !app_nil_r. conjuncts; auto.
        congruence.
    + destruct (checkUrl_after_loop_empty u options s v s1
                  Hvalid Hfollowing Hloop Hlast)
        as (s1' & Heq & Hsteps1 & Hreq1 & Hinit1).
      destruct (checkUrl_catch_result u (start_time clock s)
                  (JsError "Cannot read properties of undefined (reading 'url')") s1')
        as (res & s' & Hrun & _).
      exists res, s'. split; [now rewrite Heq |].
      apply (trace_facts_caught u opts s _ _ s1' [] res s' Hrun).
      * now rewrite Hinit1, Hinit.
      * now rewrite Hsteps1.
      * rewrite Hsteps1, (last_step_none _ Hlast). reflexivity.
      * now rewrite Hsteps1, Hreq1, Hreq, app_nil_r.
      * cbn. lia.
      * constructor.
      * now right.
  - destruct Htrace as (Hchained & Hfollowed & Herr & Hinit & Hfault).
    destruct (checkUrl_catch_result u (start_time clock s) e s1)
      as (res & s' & Hrun & _).
    exists res, s'. split.
    { now rewrite (checkUrl_loop_throws net URL_href clock u options s e s1
                     Hvalid Hfollowing Hloop). }
    destruct Hfault as [before rq Hnet Hreq Hua Hto | He Hreq Hn].
    + apply (trace_facts_caught u opts s _ e s1 [rq] res s' Hrun); auto.
      left. now exists before, rq.
    + apply (trace_facts_caught u opts s _ e s1 [] res s' Hrun); auto.
      * now rewrite app_nil_r.
      * right. now rewrite He.
  - exfalso.
    apply (while_loop_ends net URL_href (Z.to_nat m) opts (mkLoop u 0 m) (started u s)).
    + cbn. lia.
    + now rewrite Hloop.
Qed.

(** Every call of [checkUrl] returns a result with the facts of a
    trace. *)
Lemma checkUrl_trace_facts u options s :
  exists res s',
    checkUrl u options s = (Ret res, s')
    /\ trace_facts net URL_href u (mergeOptions defaultOptions options) s res s'.
Proof.
  set (opts := mergeOptions defaultOptions options).
  destruct (invalid_url u) eqn:Hvalid.
  { (* an invalid URL *)
    set (e := JsError "Invalid URL. Please include the protocol (http:// or https://)").
    destruct (checkUrl_catch_result u (start_time clock s) e (started u s))
      as (res & s' & Hrun & _).
    exists res, s'. split.
    - rewrite checkUrl_unfold. unfold try_catch, Tracer.checkUrl_try.
      now rewrite Hvalid.
    - apply (trace_facts_caught u opts s _ e (started u s) [] res s' Hrun);
        cbn; try reflexivity; auto.
      + constructor; cbn; [intros st H; discriminate | reflexivity | constructor].
      + now rewrite app_nil_r. }
  destruct (not_following (followRedirects opts)) eqn:Hfollow.
  { (* one request *)
    pose proof (checkUrl_single u options s Hvalid Hfollow) as Hsingle.
    cbv zeta in Hsingle. fold opts in Hsingle.
    destruct (net (requests s) (request_to opts u)) as [r | e] eqn:Hnet.
    - eexists; eexists. split; [exact Hsingle |].
      constructor; cbn; try reflexivity; try lia.
      + intros _. split; [discriminate | left; reflexivity].
      + exists [step_of_response u r], [], [].
        conjuncts; cbn; try reflexivity; auto.
        * constructor; cbn.
          -- intros st H. now inversion H.
          -- reflexivity.
          -- repeat constructor. tauto.
    - destruct (checkUrl_catch_result u (start_time clock s) e
                  (issued (request_to opts u) (started u s)))
        as (res & s' & Hrun & _).
      exists res, s'. split; [now rewrite Hsingle |].
      apply (trace_facts_caught u opts s _ e _ [request_to opts u] res s' Hrun);
        cbn; try reflexivity; auto.
      + constructor; cbn; [intros st H; discriminate | reflexivity | constructor].
      + left. now exists (requests s), (request_to opts u). }
  apply checkUrl_trace_facts_following; [exact Hvalid |].
  fold opts. now destruct (followRedirects opts) as [[|] |].
Qed.

(** *** Along a chain of redirects to new URLs *)

(** A terminal response: the body records the step and breaks. *)
Lemma loop_body_terminal opts v s r :
  net (requests s) (request_to opts (currentUrl v)) = inl r ->
  reached_the_end r = true ->
  loop_body opts v s
  = (Ret (Break, v),
     with_result (add_step (step_of_response (currentUrl v) r))
                 (issued (request_to opts (currentUrl v)) s)).
Proof.
  intros Hnet Hend. pose proof (loop_body_cases net URL_href opts v s) as C.
  cbv zeta in C. now rewrite Hnet, Hend in C.
Qed.

(** After [k] redirects to new URLs, with [maxRedirects] at least [k],
    the loop goes on from the [k]-th URL of the chain, with [k] more
    steps and requests and no error set. *)
Lemma while_loop_along_chain opts log chain resp (k : nat) : forall fuel i v s,
  follows_chain net URL_href opts log chain resp (i + k) ->
  currentUrl v = chain i ->
  Z.of_nat k <= loop_maxRedirects v ->
  requests s = (log ++ chain_requests opts chain i)%list ->
  steps (result s) = chain_steps chain resp i ->
  exists s',
    while_loop (k + fuel) opts v s
    = while_loop fuel opts
        (mkLoop (chain (i + k)%nat) (loop_redirectCount v + Z.of_nat k)
                (loop_maxRedirects v - Z.of_nat k)) s'
    /\ requests s' = (log ++ chain_requests opts chain (i + k))%list
    /\ steps (result s') = chain_steps chain resp (i + k)
    /\ error (result s') = error (result s)
    /\ initialUrl (result s') = initialUrl (result s)
    /\ clock_reads s' = clock_reads s.
Proof.
  induction k as [| k IH]; intros fuel i v s Hchain Hurl Hmax Hreq Hsteps.
  - exists s. rewrite Nat.add_0_r, Z.add_0_r, Z.sub_0_r.
    destruct v as [cu rc mr]; cbn in *; subst cu.
    now conjuncts.
  - destruct (Hchain i ltac:(lia)) as (Hnet & Hred & Hnew).
    rewrite <- Hreq, <- Hurl in Hnet. rewrite <- Hurl in Hred.
    cbn [Nat.add]. rewrite while_loop_step by lia.
    rewrite (loop_body_redirect net URL_href opts v s (resp i) (chain (S i)) Hnet Hred).
    2:{ rewrite Hsteps, Hurl, <- chain_steps_S.
        apply visited_chain_steps. intros j Hj. apply Hnew. lia. }
    destruct (IH fuel (S i) (advance (chain (S i)) v)
                (with_result (add_step (step_of_response (currentUrl v) (resp i)))
                   (issued (request_to opts (currentUrl v)) s)))
      as (s' & Hrun & Hreq' & Hsteps' & Herr' & Hinit' & Hclock').
    + now rewrite Nat.add_succ_l, <- Nat.add_succ_r.
    + reflexivity.
    + cbn. lia.
    + cbn [requests with_result issued].
      rewrite Hreq, Hurl, chain_requests_S. now rewrite app_assoc.
    + cbn [steps result with_result add_step issued].
      now rewrite Hsteps, Hurl, chain_steps_S.
    + exists s'. rewrite Hrun, Hreq', Hsteps', Herr', Hinit', Hclock'.
      rewrite Nat.add_succ_l, <- Nat.add_succ_r.
      cbn [advance loop_redirectCount loop_maxRedirects].
      replace (loop_redirectCount v + 1 + Z.of_nat k)
        with (loop_redirectCount v + Z.of_nat (S k)) by lia.
      replace (loop_maxRedirects v - 1 - Z.of_nat k)
        with (loop_maxRedirects v - Z.of_nat (S k)) by lia.
      conjuncts; reflexivity.
Qed.

Lemma visited_chain_steps_in chain resp n j :
  (j < n)%nat -> visited (chain_steps chain resp n) (chain j) = true.
Proof.
  induction n as [| n IH]; intros Hj; [lia |].
  rewrite chain_steps_S, visited_app. cbn [step_of_response url].
  destruct (Nat.eq_dec j n) as [-> | Hne].
  - rewrite String.eqb_refl. apply orb_true_r.
  - rewrite IH by lia. reflexivity.
Qed.

(** X7: a URL that is redirected [n] times to new URLs and then gets a
    terminal response (any status below 300 or from 400 up, or a 3xx
    without [Location]), with [n] below the bound of the loop, gives
    [n + 1] steps, [redirectCount] [n], no [error], and [finalUrl] the
    last URL of the chain. *)
Theorem checkUrl_follows_to_terminal
  (options : UrlCheckOptions) (s : State)
  (chain : nat -> string) (resp : nat -> Response) (n : nat) :
  let opts := mergeOptions defaultOptions options in
  invalid_url (chain O) = false ->
  followRedirects opts = Some true ->
  Z.of_nat n < initial_maxRedirects (maxRedirects opts) ->
  follows_chain net URL_href opts (requests s) chain resp n ->
  net (requests s ++ chain_requests opts chain n)%list (request_to opts (chain n))
  = inl (resp n) ->
  reached_the_end (resp n) = true ->
  exists res s',
    checkUrl (chain O) options s = (Ret res, s')
    /\ requests s' = (requests s ++ chain_requests opts chain (S n))%list
    /\ steps res = chain_steps chain resp (S n)
    /\ redirectCount res = Z.of_nat n
    /\ error res = None
    /\ finalUrl res = chain n.
Proof.
  intros opts Hvalid Hfollow Hbound Hchain Hnet Hend.
  set (m := initial_maxRedirects (maxRedirects opts)) in *.
  destruct (Z.to_nat m) as [| fuel] eqn:Hfuel; [lia |].
  assert (Hsplit : S fuel = (n + S (fuel - n))%nat) by lia.
  destruct (while_loop_along_chain opts (requests s) chain resp n (S (fuel - n)) O
              (mkLoop (chain O) 0 m) (started (chain O) s))
    as (s1 & Hloop & Hreq1 & Hsteps1 & Herr1 & _);
    try reflexivity; try exact Hchain.
  { cbn. lia. }
  { cbn. now rewrite app_nil_r. }
  cbn [Nat.add loop_redirectCount loop_maxRedirects] in Hloop, Hreq1, Hsteps1.
  rewrite <- Hsplit, <- Hfuel in Hloop.
  rewrite while_loop_step in Hloop by (cbn; lia).
  rewrite (loop_body_terminal opts _ s1 (resp n)) in Hloop;
    [| cbn [currentUrl]; now rewrite Hreq1 | exact Hend].
  fold m in Hloop.
  destruct (checkUrl_after_loop net URL_href clock (chain O) options s _ _
              (step_of_response (chain n) (resp n)) Hvalid Hfollow Hloop)
    as (res & s2 & Hrun & Hreq & Hsteps & Hcount & Hfinal & _ & Herr).
  { cbn [with_result issued result steps add_step currentUrl].
    apply last_step_app. }
  exists res, s2. split; [exact Hrun |].
  rewrite Hreq, Hsteps, Hcount, Hfinal, Herr.
  cbn [with_result issued result steps add_step requests currentUrl
       loop_redirectCount loop_maxRedirects error url step_of_response].
  rewrite Hreq1, Hsteps1, Herr1, chain_requests_S, chain_steps_S, app_assoc.
  conjuncts; try reflexivity.
  destruct (Z.eqb_spec (m - Z.of_nat n) 0); [lia | reflexivity].
Qed.

(** X9: a URL that is redirected [n] times to new URLs and then to a
    URL already visited (any of the [n + 1] requested, itself
    included), with [n + 1] below the bound of the loop, gives [n + 1]
    steps, [redirectCount] [n + 1] and the error "Circular redirect
    detected"; the repeated URL is not requested again. *)
Theorem checkUrl_detects_any_cycle
  (options : UrlCheckOptions) (s : State)
  (chain : nat -> string) (resp : nat -> Response) (n j : nat) :
  let opts := mergeOptions defaultOptions options in
  invalid_url (chain O) = false ->
  followRedirects opts = Some true ->
  Z.of_nat (S n) < initial_maxRedirects (maxRedirects opts) ->
  follows_chain net URL_href opts (requests s) chain resp n ->
  net (requests s ++ chain_requests opts chain n)%list (request_to opts (chain n))
  = inl (resp n) ->
  (j <= n)%nat ->
  redirects_to URL_href (resp n) (chain n) (chain j) ->
  exists res s',
    checkUrl (chain O) options s = (Ret res, s')
    /\ requests s' = (requests s ++ chain_requests opts chain (S n))%list
    /\ steps res = chain_steps chain resp (S n)
    /\ redirectCount res = Z.of_nat (S n)
    /\ error res = Some "Circular redirect detected"
    /\ finalUrl res = chain n.
Proof.
  intros opts Hvalid Hfollow Hbound Hchain Hnet Hj Hred.
  set (m := initial_maxRedirects (maxRedirects opts)) in *.
  destruct (Z.to_nat m) as [| fuel] eqn:Hfuel; [lia |].
  assert (Hsplit : S fuel = (n + S (fuel - n))%nat) by lia.
  destruct (while_loop_along_chain opts (requests s) chain resp n (S (fuel - n)) O
              (mkLoop (chain O) 0 m) (started (chain O) s))
    as (s1 & Hloop & Hreq1 & Hsteps1 & Herr1 & _);
    try reflexivity; try exact Hchain.
  { cbn. lia. }
  { cbn. now rewrite app_nil_r. }
  cbn [Nat.add loop_redirectCount loop_maxRedirects] in Hloop, Hreq1, Hsteps1.
  rewrite <- Hsplit, <- Hfuel in Hloop.
  rewrite while_loop_step in Hloop by (cbn; lia).
  rewrite (loop_body_circular net URL_href opts _ s1 (resp n) (chain j)) in Hloop.
  2:{ cbn [currentUrl]. now rewrite Hreq1. }
  2:{ exact Hred. }
  2:{ cbn [currentUrl]. rewrite Hsteps1, <- chain_steps_S.
      apply visited_chain_steps_in. lia. }
  fold m in Hloop.
  destruct (checkUrl_after_loop net URL_href clock (chain O) options s _ _
              (step_of_response (chain n) (resp n)) Hvalid Hfollow Hloop)
    as (res & s2 & Hrun & Hreq & Hsteps & Hcount & Hfinal & _ & Herr).
  { cbn [with_result with_error issued result steps add_step currentUrl].
    apply last_step_app. }
  exists res, s2. split; [exact Hrun |].
  rewrite Hreq, Hsteps, Hcount, Hfinal, Herr.
  cbn [with_result with_error issued result steps add_step requests currentUrl
       advance loop_redirectCount loop_maxRedirects error url step_of_response].
  rewrite Hreq1, Hsteps1, chain_requests_S, chain_steps_S, app_assoc.
  conjuncts; try reflexivity; [lia |].
  destruct (Z.eqb_spec (m - Z.of_nat n - 1) 0); [lia | reflexivity].
Qed.

(** X19: for every bound [limit] of the loop (the merged option, or 20
    when the merged option is 0 or [undefined]), a URL that is
    redirected [limit] times to new URLs gives [limit] requests and
    steps: the target of the last redirect is never requested and
    [redirectCount] is [limit].  When the merged option is a number,
    [error] is the limit text naming that number; when it is
    [undefined], no [error] is set. *)
Theorem checkUrl_stops_at_the_limit
  (options : UrlCheckOptions) (s : State)
  (chain : nat -> string) (resp : nat -> Response) (limit : nat) :
  let opts := mergeOptions defaultOptions options in
  invalid_url (chain O) = false ->
  followRedirects opts = Some true ->
  initial_maxRedirects (maxRedirects opts) = Z.of_nat limit ->
  follows_chain net URL_href opts (requests s) chain resp limit ->
  exists res s',
    checkUrl (chain O) options s = (Ret res, s')
    /\ requests s' = (requests s ++ chain_requests opts chain limit)%list
    /\ steps res = chain_steps chain resp limit
    /\ redirectCount res = Z.of_nat limit
    /\ finalUrl res = chain (limit - 1)%nat
    /\ error res
       = match maxRedirects opts with
         | Some configured =>
             Some ("Maximum number of redirects (" ++ string_of_Z configured
                   ++ ") reached")
         | None => None
         end.
Proof.
  intros opts Hvalid Hfollow Hmax Hchain.
  destruct limit as [| n].
  - exfalso. unfold initial_maxRedirects, or_number in Hmax.
    destruct (maxRedirects opts) as [m |]; [| discriminate].
    destruct (Z.eqb_spec m 0); [discriminate | contradiction].
  - destruct (checkUrl_exhausts_limit net URL_href clock options s chain resp n
                Hvalid Hfollow Hmax Hchain)
      as (res & s' & Hrun & Hreq & Hsteps & Hcount & Hfinal & Herr).
    exists res, s'. split; [exact Hrun |].
    replace (S n - 1)%nat with n by lia.
    conjuncts; try assumption.
    rewrite Herr. fold opts. unfold limit_message.
    now destruct (maxRedirects opts).
Qed.

(** X8: a negative [maxRedirects] is kept as the bound of the loop,
    which then never runs: no request is issued, no step is recorded,
    and the result carries the message of the error thrown while
    reading the last step. *)
Theorem checkUrl_negative_maxRedirects
  (u : string) (options : UrlCheckOptions) (s : State) (limit : Z) :
  invalid_url u = false ->
  followRedirects (mergeOptions defaultOptions options) = Some true ->
  maxRedirects options = Some limit ->
  limit < 0 ->
  exists res s',
    checkUrl u options s = (Ret res, s')
    /\ requests s' = requests s
    /\ steps res = []
    /\ redirectCount res = 0
    /\ finalUrl res = u
    /\ error res = Some "Cannot read properties of undefined (reading 'url')".
Proof.
  intros Hvalid Hfollow Hmax Hneg.
  set (opts := mergeOptions defaultOptions options).
  assert (Hopts : maxRedirects opts = Some limit) by now apply maxRedirects_merged.
  assert (Hm : initial_maxRedirects (maxRedirects opts) = limit).
  { rewrite Hopts. cbn. unfold or_number.
    destruct (Z.eqb_spec limit 0); [lia | reflexivity]. }
  assert (Hloop :
    while_loop (Z.to_nat (initial_maxRedirects (maxRedirects opts))) opts
      (mkLoop u 0 (initial_maxRedirects (maxRedirects opts))) (started u s)
    = (Ret (mkLoop u 0 (initial_maxRedirects (maxRedirects opts))), started u s)).
  { apply while_loop_done. cbn [loop_maxRedirects]. rewrite Hm. lia. }
  destruct (checkUrl_after_loop_empty u options s _ _ Hvalid Hfollow Hloop eq_refl)
    as (s1' & Heq & Hsteps1 & Hreq1 & _).
  destruct (checkUrl_catch_result u (start_time clock s)
              (JsError "Cannot read properties of undefined (reading 'url')") s1')
    as (res & s' & Hrun & Hreq & _ & Herr & Hsteps & Hfinal & Hcount).
  exists res, s'. split; [now rewrite Heq |].
  rewrite Hfinal, Hcount, Hsteps, Hreq, Herr, Hsteps1, Hreq1.
  now conjuncts.
Qed.

(** *** What every result satisfies *)

Lemma followed_is_redirect st :
  followed st = true ->
  300 <= statusCode st < 400 /\ truthy (location st) = true.
Proof.
  unfold followed, terminal_step. intros H.
  destruct (Z.ltb_spec (statusCode st) 300), (Z.leb_spec 400 (statusCode st)),
           (truthy (location st)); try discriminate.
  split; [lia | reflexivity].
Qed.

Lemma redirects_before_last_nth l : forall i st,
  redirects_before_last l = true ->
  nth_error l i = Some st ->
  (S i < length l)%nat ->
  followed st = true.
Proof.
  induction l as [| x l IH]; intros i st Hall Hnth Hlt; [destruct i; discriminate |].
  destruct l as [| y l]; [cbn in Hlt; lia |].
  cbn [redirects_before_last] in Hall. apply andb_prop in Hall as [Hx Hrest].
  destruct i as [| i].
  - cbn in Hnth. now inversion Hnth; subst.
  - apply (IH i st Hrest Hnth). cbn in Hlt |- *. lia.
Qed.

Lemma linked_nth l : forall i st next,
  linked l = true ->
  nth_error l i = Some st ->
  nth_error l (S i) = Some next ->
  URL_href (location_text (location st)) (url st) = Some (url next).
Proof.
  induction l as [| x l IH]; intros i st next Hall Hst Hnext;
    [destruct i; discriminate |].
  destruct l as [| y l]; [destruct i; discriminate |].
  cbn [TraceShape.linked] in Hall. apply andb_prop in Hall as [Hx Hrest].
  destruct i as [| i].
  - cbn in Hst, Hnext. inversion Hst; inversion Hnext; subst.
    unfold TraceShape.leads_to in Hx.
    destruct (URL_href _ _) as [href |]; [| discriminate].
    apply String.eqb_eq in Hx. now subst.
  - exact (IH i st next Hrest Hst Hnext).
Qed.

(** X1: in every result of [checkUrl], every step but the last is a
    redirect that was followed: its status is in [300,400) and it has a
    non-empty [Location]. *)
Theorem checkUrl_steps_before_last_are_redirects
  (u : string) (options : UrlCheckOptions) (s : State) :
  exists res s',
    checkUrl u options s = (Ret res, s')
    /\ forall i st,
         nth_error (steps res) i = Some st ->
         (S i < length (steps res))%nat ->
         300 <= statusCode st < 400 /\ truthy (location st) = true.
Proof.
  destruct (checkUrl_trace_facts u options s) as (res & s' & Hrun & Hfacts).
  exists res, s'. split; [exact Hrun |].
  intros i st Hnth Hlt. apply followed_is_redirect.
  exact (redirects_before_last_nth _ i st (trace_before_last _ _ _ _ _ _ _ Hfacts)
           Hnth Hlt).
Qed.

(** X2: when the faults of the network carry no response, the steps of
    every result form a chain: the first step is for the input URL, and
    the URL of each later step is the [Location] of the step before it,
    resolved against that step's URL. *)
Theorem checkUrl_steps_are_linked
  (u : string) (options : UrlCheckOptions) (s : State) :
  faults_without_response net ->
  exists res s',
    checkUrl u options s = (Ret res, s')
    /\ (forall st, nth_error (steps res) 0 = Some st -> url st = u)
    /\ (forall i st next,
          nth_error (steps res) i = Some st ->
          nth_error (steps res) (S i) = Some next ->
          URL_href (location_text (location st)) (url st) = Some (url next)).
Proof.
  intros Hfaults.
  destruct (checkUrl_trace_facts u options s) as (res & s' & Hrun & Hfacts).
  exists res, s'. split; [exact Hrun |].
  destruct (trace_steps _ _ _ _ _ _ _ Hfacts)
    as (l & extra & failed & Hsteps & [Hstart Hlinked Hdistinct] & _ & Hextra & _).
  rewrite (Hextra Hfaults), app_nil_r in Hsteps. rewrite Hsteps. split.
  - intros st Hnth. apply Hstart. destruct l; [discriminate | exact Hnth].
  - intros i st next. now apply linked_nth.
Qed.

(** X3: when the faults of the network carry no response, no URL
    occurs twice among the steps of a result. *)
Theorem checkUrl_step_urls_are_distinct
  (u : string) (options : UrlCheckOptions) (s : State) :
  faults_without_response net ->
  exists res s',
    checkUrl u options s = (Ret res, s')
    /\ NoDup (map url (steps res)).
Proof.
  intros Hfaults.
  destruct (checkUrl_trace_facts u options s) as (res & s' & Hrun & Hfacts).
  exists res, s'. split; [exact Hrun |].
  destruct (trace_steps _ _ _ _ _ _ _ Hfacts)
    as (l & extra & failed & Hsteps & [Hstart Hlinked Hdistinct] & _ & Hextra & _).
  now rewrite Hsteps, (Hextra Hfaults), app_nil_r.
Qed.

(** X4: when the faults of the network carry no response, [checkUrl]
    only appends to the requests issued: one request per recorded step,
    in order and for that step's URL, then at most one request that
    failed and has no step (none when the result has no [error]).
    Every request carries the merged [userAgent] and [timeout]. *)
Theorem checkUrl_requests
  (u : string) (options : UrlCheckOptions) (s : State) :
  let opts := mergeOptions defaultOptions options in
  faults_without_response net ->
  exists res s' failed,
    checkUrl u options s = (Ret res, s')
    /\ requests s'
       = (requests s ++ map (fun st => request_to opts (url st)) (steps res)
                     ++ failed)%list
    /\ (length failed <= 1)%nat
    /\ (error res = None -> failed = [])
    /\ Forall (fun rq => req_userAgent rq = userAgent opts
                         /\ req_timeout rq = timeout opts)
              (map (fun st => request_to opts (url st)) (steps res) ++ failed).
Proof.
  intros opts Hfaults.
  destruct (checkUrl_trace_facts u options s) as (res & s' & Hrun & Hfacts).
  destruct (trace_steps _ _ _ _ _ _ _ Hfacts)
    as (l & extra & failed & Hsteps & _ & _ & Hextra & Hreq & Hlen & Hclean & Hmerged).
  rewrite (Hextra Hfaults), app_nil_r in Hsteps. subst l.
  exists res, s', failed. conjuncts; try assumption.
  apply Forall_app. split; [| exact Hmerged].
  apply Forall_map, Forall_forall. intros st _. now split.
Qed.

(** X5: in every result, [redirectCount] is the number of steps or one
    less.  A result without [error] has at least one step, and its
    [redirectCount] is the number of steps less one, with one
    exception: when the merged [maxRedirects] is [undefined] and the
    bound of 20 was used up, the result has 20 steps, all of them
    redirects, and [redirectCount] 20.  So when the merged
    [maxRedirects] is a number, [redirectCount] is the number of steps
    less one in every result without [error]. *)
Theorem checkUrl_redirectCount_and_steps
  (u : string) (options : UrlCheckOptions) (s : State) :
  let opts := mergeOptions defaultOptions options in
  exists res s',
    checkUrl u options s = (Ret res, s')
    /\ Z.of_nat (length (steps res)) - 1 <= redirectCount res
       <= Z.of_nat (length (steps res))
    /\ (error res = None ->
        steps res <> []
        /\ (redirectCount res = Z.of_nat (length (steps res)) - 1
            \/ (maxRedirects opts = None
                /\ redirectCount res = 20
                /\ length (steps res) = 20%nat
                /\ forallb followed (steps res) = true)))
    /\ (error res = None ->
        maxRedirects opts <> None ->
        redirectCount res = Z.of_nat (length (steps res)) - 1).
Proof.
  intros opts.
  destruct (checkUrl_trace_facts u options s) as (res & s' & Hrun & Hfacts).
  pose proof (trace_count_clean _ _ _ _ _ _ _ Hfacts) as Hclean. fold opts in Hclean.
  exists res, s'. split; [exact Hrun |]. split; [| split].
  - exact (trace_count _ _ _ _ _ _ _ Hfacts).
  - intros Hnone. destruct (Hclean Hnone) as [Hsome [Hless | (Hlimit & H20 & Hlen & Hall)]].
    + split; [exact Hsome | now left].
    + split; [exact Hsome |]. right. now conjuncts.
  - intros Hnone Hlimit.
    destruct (Hclean Hnone) as [_ [Hless | (Hnolimit & _)]]; [exact Hless | contradiction].
Qed.

(** X6: in every result, [initialUrl] is the input URL and [finalUrl]
    is the URL of the last step, or the input URL when no step was
    recorded. *)
Theorem checkUrl_initialUrl_and_finalUrl
  (u : string) (options : UrlCheckOptions) (s : State) :
  exists res s',
    checkUrl u options s = (Ret res, s')
    /\ initialUrl res = u
    /\ finalUrl res = match last_step (steps res) with
                      | Some st => url st
                      | None => u
                      end.
Proof.
  destruct (checkUrl_trace_facts u options s) as (res & s' & Hrun & Hfacts).
  exists res, s'. split; [exact Hrun |]. split.
  - exact (trace_initialUrl _ _ _ _ _ _ _ Hfacts).
  - exact (trace_finalUrl _ _ _ _ _ _ _ Hfacts).
Qed.

End World.

End TraceFacts.

(* ------------------------------------------------------------------ *)
(** * The two functions of the classifier together *)

Module ClassifierMoreFacts.

Import Classifier ClassifierFacts.

(** X20: a status code that has a description has a class: every code
    of the table is between 200 and 599, and its class is "status-Nxx"
    with N its hundreds digit. *)
Theorem described_codes_are_classified (c : Z) :
  getStatusDescription c <> "Unknown Status" ->
  200 <= c < 600
  /\ getStatusCodeClass c = "status-" ++ string_of_Z (c / 100) ++ "xx".
Proof.
  intros Hdescribed.
  destruct (in_dec Z.eq_dec c described_codes) as [Hin | Hout].
  - cbn in Hin.
    repeat (destruct Hin as [<- | Hin]; [split; [lia | reflexivity] |]).
    contradiction.
  - exfalso. apply Hdescribed. unfold getStatusDescription.
    rewrite lookup_Z_none; [reflexivity |].
    fold table_codes. now rewrite table_codes_described.
Qed.

Lemma described_codes_are_classified_witness :
  200 <= 404 < 600
  /\ getStatusCodeClass 404 = "status-" ++ string_of_Z (404 / 100) ++ "xx".
Proof.
  apply (described_codes_are_classified 404). discriminate.
Defined.

End ClassifierMoreFacts.

(* ------------------------------------------------------------------ *)
(** * Properties of the views *)

Module ViewFacts.

Import Tracer TraceShape TracerFacts TraceFacts ResultsView.

(** A step with an error status ends the trace: among steps whose
    non-final members are followed redirects, it can only be the last. *)
Lemma error_status_is_last l :
  redirects_before_last l = true ->
  existsb (fun st => 400 <=? statusCode st) l = true ->
  exists st, last_step l = Some st /\ 400 <= statusCode st.
Proof.
  induction l as [| x l IH]; intros Hall Hsome; [discriminate |].
  destruct l as [| y l].
  - cbn in Hsome. rewrite orb_false_r in Hsome. exists x.
    split; [reflexivity | now apply Z.leb_le].
  - cbn [redirects_before_last] in Hall. apply andb_prop in Hall as [Hx Hrest].
    apply followed_is_redirect in Hx as [Hx _].
    cbn [existsb] in Hsome.
    destruct (Z.leb_spec 400 (statusCode x)); [lia |].
    destruct (IH Hrest Hsome) as (st & Hlast & Hst).
    exists st. split; [| exact Hst].
    rewrite last_step_cons, Hlast. reflexivity.
Qed.

Lemma sum_of_deductions (r : RedirectResult) :
  calculateSeoImpactScore (Some r)
  = Z.max 0 (100 - fold_right Z.add 0 (map deduction (getScoreDeductions (Some r)))).
Proof.
  unfold calculateSeoImpactScore, getScoreDeductions.
  cbn [map fold_right deduction].
  destruct (1 <? Z.of_nat (length (steps r))), (hasInsecureUrl r),
           (hasErrorStatus r), (hasLoop r), (hasTemporaryRedirect r);
    f_equal; lia.
Qed.

(** X10: for a result, the SEO impact score is between 0 and 100 and is
    100 less the deductions of the breakdown (not below 0); a row of
    the breakdown is marked as detected exactly when it deducts
    points. *)
Theorem seo_score_matches_breakdown (r : RedirectResult) :
  0 <= calculateSeoImpactScore (Some r) <= 100
  /\ calculateSeoImpactScore (Some r)
     = Z.max 0 (100 - fold_right Z.add 0
                        (map deduction (getScoreDeductions (Some r))))
  /\ Forall (fun d => detected d = true <-> 0 < deduction d)
            (getScoreDeductions (Some r)).
Proof.
  split; [| split; [apply sum_of_deductions |]].
  - unfold calculateSeoImpactScore.
    destruct (Z.ltb_spec 1 (Z.of_nat (length (steps r)))), (hasInsecureUrl r),
             (hasErrorStatus r), (hasLoop r), (hasTemporaryRedirect r); lia.
  - unfold getScoreDeductions.
    repeat constructor; cbn [detected deduction];
      try (destruct (Z.ltb_spec 1 (Z.of_nat (length (steps r)))));
      try (destruct (hasInsecureUrl r)); try (destruct (hasErrorStatus r));
      try (destruct (hasLoop r)); try (destruct (hasTemporaryRedirect r));
      try lia; try discriminate; try reflexivity.
Qed.

Lemma seen_again_distinct (l : list RedirectStep) : forall urls,
  NoDup (map url l) ->
  (forall u, In u urls -> ~ In u (map url l)) ->
  seen_again urls l = false.
Proof.
  induction l as [| st l IH]; intros urls Hdistinct Hapart; [reflexivity |].
  cbn [seen_again]. inversion Hdistinct as [| x xs Hnotin Hrest]; subst.
  destruct (existsb (String.eqb (url st)) urls) eqn:Hseen.
  - exfalso. apply existsb_exists in Hseen as (u & Hin & Heq).
    apply String.eqb_eq in Heq. subst u.
    apply (Hapart (url st) Hin). now left.
  - apply IH; [exact Hrest |].
    intros u [<- | Hin] Hin'; [contradiction |].
    apply (Hapart u Hin). now right.
Qed.

(** X11: when the faults of the network carry no response, the steps of
    a result of [checkUrl] never contain a URL twice, so the score never
    detects a redirect loop in it: the row "Redirect Loops" deducts
    nothing, also when the result's [error] is "Circular redirect
    detected". *)
Theorem seo_score_sees_no_loop
  (net : list Request -> Request -> Response + Thrown)
  (URL_href : string -> string -> option string)
  (clock : nat -> list Request -> Z)
  (u : string) (options : UrlCheckOptions) (s : State) :
  faults_without_response net ->
  exists res s',
    checkUrl net URL_href clock u options s = (Ret res, s')
    /\ hasLoop res = false
    /\ In (mkDeduction "Redirect Loops" 0 false) (getScoreDeductions (Some res)).
Proof.
  intros Hfaults.
  destruct (checkUrl_trace_facts net URL_href clock u options s)
    as (res & s' & Hrun & Hfacts).
  exists res, s'. split; [exact Hrun |].
  destruct (trace_steps _ _ _ _ _ _ _ Hfacts)
    as (l & extra & failed & Hsteps & [Hstart Hlinked Hdistinct] & _ & Hextra & _).
  rewrite (Hextra Hfaults), app_nil_r in Hsteps.
  assert (Hloop : hasLoop res = false).
  { unfold hasLoop. rewrite Hsteps.
    apply seen_again_distinct; [exact Hdistinct | intros x []]. }
  split; [exact Hloop |].
  unfold getScoreDeductions. rewrite Hloop. cbn. tauto.
Qed.

Lemma finalStatus_of_last (r : RedirectResult) st :
  last_step (steps r) = Some st ->
  statusCode st <> 0 ->
  finalStatus r = statusCode st.
Proof.
  intros Hlast Hnz. unfold finalStatus, or_number. rewrite Hlast.
  destruct (Z.eqb_spec (statusCode st) 0); [contradiction | reflexivity].
Qed.

(** With every step but the last a followed redirect, an error status
    among the steps is the final status. *)
Lemma error_status_is_final (r : RedirectResult) :
  redirects_before_last (steps r) = true ->
  hasErrorStatus r || (400 <=? finalStatus r) = true ->
  400 <= finalStatus r.
Proof.
  intros Hall H. apply orb_prop in H as [H | H]; [| now apply Z.leb_le].
  destruct (error_status_is_last _ Hall H) as (st & Hlast & Hst).
  rewrite (finalStatus_of_last r st Hlast); lia.
Qed.

Lemma statusMessage_not_chain_error (r : RedirectResult) :
  redirects_before_last (steps r) = true ->
  statusMessage r <> "Error encountered during redirect chain".
Proof.
  intros Hall. unfold statusMessage.
  destruct (hasErrorStatus r || (400 <=? finalStatus r)) eqn:Herror.
  - pose proof (error_status_is_final r Hall Herror) as Hfinal.
    destruct (Z.leb_spec 400 (finalStatus r)); [| lia].
    destruct (Z.ltb_spec (finalStatus r) 500); cbn [andb]; [discriminate |].
    destruct (Z.leb_spec 500 (finalStatus r)); [discriminate | lia].
  - destruct (_ && _ && _); [discriminate |].
    destruct (_ && _ && _); [cbn; discriminate |].
    destruct (_ && _); discriminate.
Qed.

(** X12: for no result of [checkUrl] does the banner read "Error
    encountered during redirect chain": a step with an error status is
    always the last one, so the banner names a client or a server
    error instead. *)
Theorem banner_never_reports_error_in_chain
  (net : list Request -> Request -> Response + Thrown)
  (URL_href : string -> string -> option string)
  (clock : nat -> list Request -> Z)
  (u : string) (options : UrlCheckOptions) (s : State) :
  exists res s',
    checkUrl net URL_href clock u options s = (Ret res, s')
    /\ getBannerMessage (Some res) <> "Error encountered during redirect chain".
Proof.
  destruct (checkUrl_trace_facts net URL_href clock u options s)
    as (res & s' & Hrun & Hfacts).
  exists res, s'. split; [exact Hrun |].
  pose proof (statusMessage_not_chain_error res
                (trace_before_last _ _ _ _ _ _ _ Hfacts)) as Hstatus.
  unfold getBannerMessage.
  destruct (error res) as [message |]; [| exact Hstatus].
  destruct (truthy_string message); [| exact Hstatus].
  cbn. discriminate.
Qed.

(** With every step but the last a followed redirect and a last status
    below 400, no step has an error status. *)
Lemma no_error_status (r : RedirectResult) st :
  redirects_before_last (steps r) = true ->
  last_step (steps r) = Some st ->
  statusCode st < 400 ->
  hasErrorStatus r = false.
Proof.
  intros Hall Hlast Hst. destruct (hasErrorStatus r) eqn:H; [| reflexivity].
  destruct (error_status_is_last _ Hall H) as (st' & Hlast' & Hst').
  rewrite Hlast in Hlast'. inversion Hlast'; subst st'. lia.
Qed.

(** X13: for a result of [checkUrl] without [error] whose last step has
    a 2xx status, the banner counts the redirects as the result does:
    with [redirectCount] 0 it is of type "success" and reads "Direct
    connection successful with no redirects", otherwise it is of type
    "info" and reads "Successfully followed N redirect(s)" with N the
    [redirectCount] of the result. *)
Theorem banner_counts_the_redirects
  (net : list Request -> Request -> Response + Thrown)
  (URL_href : string -> string -> option string)
  (clock : nat -> list Request -> Z)
  (u : string) (options : UrlCheckOptions) (s : State)
  (res : RedirectResult) (s' : State) (st : RedirectStep) :
  checkUrl net URL_href clock u options s = (Ret res, s') ->
  error res = None ->
  last_step (steps res) = Some st ->
  200 <= statusCode st < 300 ->
  0 <= redirectCount res
  /\ getBannerType (Some res)
     = (if redirectCount res =? 0 then "success" else "info")
  /\ getBannerMessage (Some res)
     = (if redirectCount res =? 0
        then "Direct connection successful with no redirects"
        else "Successfully followed " ++ string_of_Z (redirectCount res)
             ++ " redirect"
             ++ (if 1 <? redirectCount res then "s" else EmptyString)).
Proof.
  intros Hrun Hnone Hlast Hst.
  destruct (checkUrl_trace_facts net URL_href clock u options s)
    as (res1 & s1 & Hrun1 & Hfacts).
  rewrite Hrun in Hrun1. inversion Hrun1; subst res1 s1.
  destruct (trace_count_clean _ _ _ _ _ _ _ Hfacts Hnone)
    as [Hsome [Hcount | (_ & _ & _ & Hall)]].
  2:{ (* a used-up bound leaves a redirect as the last step *)
      exfalso. pose proof (followed_last _ _ Hall Hlast) as Ht.
      unfold terminal_step in Ht.
      destruct (Z.ltb_spec (statusCode st) 300); [discriminate | lia]. }
  pose proof (no_error_status res st (trace_before_last _ _ _ _ _ _ _ Hfacts)
                Hlast ltac:(lia)) as Herror.
  pose proof (finalStatus_of_last res st Hlast ltac:(lia)) as Hfinal.
  assert (Hlen : (0 < length (steps res))%nat)
    by (destruct (steps res); [contradiction | cbn; lia]).
  split; [lia |].
  unfold getBannerType, getBannerMessage, statusMessage.
  rewrite Hnone, Herror, Hfinal, <- Hcount. cbn [truthy orb].
  destruct (Z.leb_spec 400 (statusCode st)); [lia |].
  destruct (Z.leb_spec 300 (statusCode st)); [lia |].
  destruct (Z.leb_spec 200 (statusCode st)); [| lia].
  destruct (Z.ltb_spec (statusCode st) 300); [| lia].
  rewrite !andb_true_r.
  replace (1 <? Z.of_nat (length (steps res))) with (negb (redirectCount res =? 0)).
  2:{ destruct (Z.eqb_spec (redirectCount res) 0),
               (Z.ltb_spec 1 (Z.of_nat (length (steps res)))); try reflexivity; lia. }
  destruct (Z.eqb_spec (redirectCount res) 0) as [Hzero | Hnz]; cbn [negb].
  - split; reflexivity.
  - destruct (Z.ltb_spec 0 (redirectCount res)); [| lia]. split; reflexivity.
Qed.

End ViewFacts.

(* ------------------------------------------------------------------ *)
(** * Properties of the form, the timeline helpers and the page *)

Module FormFacts.

Import Tracer UrlInputForm.

(** A URL with the protocol added passes the check of [checkUrl]. *)
Lemma formatUrl_valid (url : string) : invalid_url (formatUrl url) = false.
Proof.
  unfold formatUrl, invalid_url.
  destruct (String.prefix "http://" url) eqn:Hhttp.
  - cbn [negb andb]. rewrite Hhttp.
    destruct url; [discriminate | reflexivity].
  - destruct (String.prefix "https://" url) eqn:Hhttps; cbn [negb andb].
    + rewrite Hhttps, andb_false_r.
      destruct url; [discriminate | reflexivity].
    + cbn. destruct url; reflexivity.
Qed.

Lemma formatUrl_idempotent (url : string) :
  formatUrl (formatUrl url) = formatUrl url.
Proof.
  pose proof (formatUrl_valid url) as H. unfold invalid_url in H.
  apply orb_false_elim in H as [_ H].
  unfold formatUrl at 1. now rewrite H.
Qed.

(** X14: whatever a submit handler of the form hands to [onSubmit]
    passes the protocol check of [checkUrl]; a URL that has a protocol
    is handed on unchanged, and adding the protocol twice changes
    nothing more.  The single-URL handler submits exactly when the
    input is not empty. *)
Theorem submitted_url_is_valid (trim : string -> string) (input : string) :
  (forall formattedUrl,
     handleSubmit input = onSubmit formattedUrl
     \/ handleBatchSubmit trim input = onSubmit formattedUrl ->
     invalid_url formattedUrl = false
     /\ formatUrl formattedUrl = formattedUrl)
  /\ (invalid_url input = false -> handleSubmit input = onSubmit input)
  /\ (handleSubmit input = setError "Please enter a URL" <-> input = EmptyString).
Proof.
  split; [| split].
  - intros formattedUrl [H | H].
    + unfold handleSubmit in H.
      destruct (truthy_string input); cbn [negb] in H; inversion H.
      split; [apply formatUrl_valid | apply formatUrl_idempotent].
    + unfold handleBatchSubmit in H.
      destruct (truthy_string input); cbn [negb] in H; [| discriminate].
      destruct (filter _ _) as [| first rest]; inversion H.
      split; [apply formatUrl_valid | apply formatUrl_idempotent].
  - intros Hvalid. unfold invalid_url in Hvalid.
    apply orb_false_elim in Hvalid as [Htruthy Hprefix].
    unfold handleSubmit, formatUrl. now rewrite Htruthy, Hprefix.
  - unfold handleSubmit. destruct input as [| c rest]; cbn.
    + split; reflexivity.
    + split; discriminate.
Qed.

(** The form adds the protocol to a bare host name. *)
Lemma submitted_url_is_valid_witness :
  invalid_url "https://example.com" = false
  /\ formatUrl "https://example.com" = "https://example.com".
Proof.
  apply (submitted_url_is_valid (fun u => u) "example.com").
  left. reflexivity.
Defined.

End FormFacts.

Module ChainHelperFacts.

Import RedirectChain.

Lemma substring_length (n : nat) : forall s,
  String.length (String.substring 0 n s) = Nat.min n (String.length s).
Proof.
  induction n as [| n IH]; intros s.
  - destruct s; reflexivity.
  - destruct s as [| c s]; [reflexivity |]. cbn. now rewrite IH.
Qed.

Lemma substring_all (n : nat) : forall s,
  (String.length s <= n)%nat -> String.substring 0 n s = s.
Proof.
  induction n as [| n IH]; intros s H.
  - destruct s; [reflexivity | cbn in H; lia].
  - destruct s as [| c s]; [reflexivity |]. cbn in H |- *.
    rewrite IH by lia. reflexivity.
Qed.

Lemma substring_of_prefix (n : nat) : forall s t,
  (n <= String.length s)%nat ->
  String.substring 0 n (String.substring 0 n s ++ t) = String.substring 0 n s.
Proof.
  induction n as [| n IH]; intros s t H.
  - destruct s; cbn; destruct t; reflexivity.
  - destruct s as [| c s]; [cbn in H; lia |]. cbn in H |- *.
    rewrite IH by lia. reflexivity.
Qed.

Lemma append_length (s1 s2 : string) :
  String.length (s1 ++ s2) = (String.length s1 + String.length s2)%nat.
Proof. induction s1 as [| c s1 IH]; cbn; [reflexivity | now rewrite IH]. Qed.

Lemma truncateUrl_short (url : string) (maxLength : Z) :
  Z.of_nat (String.length url) <= maxLength -> truncateUrl url maxLength = url.
Proof.
  intros H. unfold truncateUrl.
  destruct (Z.leb_spec (Z.of_nat (String.length url)) maxLength); [reflexivity | lia].
Qed.

Lemma truncateUrl_long (url : string) (maxLength : Z) :
  maxLength < Z.of_nat (String.length url) ->
  truncateUrl url maxLength = String.substring 0 (Z.to_nat maxLength) url ++ "...".
Proof.
  intros H. unfold truncateUrl.
  destruct (Z.leb_spec (Z.of_nat (String.length url)) maxLength); [lia | reflexivity].
Qed.

(** X15: a truncated URL is never longer than [maxLength] and the three
    dots; a URL of at most [maxLength] characters is shown as it is;
    truncating twice gives what truncating once gives. *)
Theorem truncateUrl_bounded_and_idempotent (url : string) (maxLength : Z) :
  (String.length (truncateUrl url maxLength) <= Z.to_nat maxLength + 3)%nat
  /\ (Z.of_nat (String.length url) <= maxLength ->
      truncateUrl url maxLength = url)
  /\ (maxLength < Z.of_nat (String.length url) ->
      truncateUrl url maxLength
      = String.substring 0 (Z.to_nat maxLength) url ++ "...")
  /\ truncateUrl (truncateUrl url maxLength) maxLength = truncateUrl url maxLength.
Proof.
  split; [| split; [apply truncateUrl_short | split; [apply truncateUrl_long |]]].
  - destruct (Z.le_gt_cases (Z.of_nat (String.length url)) maxLength) as [Hshort | Hlong].
    + rewrite truncateUrl_short by exact Hshort. lia.
    + rewrite truncateUrl_long by lia.
      rewrite append_length, substring_length. cbn. lia.
  - destruct (Z.le_gt_cases (Z.of_nat (String.length url)) maxLength) as [Hshort | Hlong].
    + rewrite (truncateUrl_short url) by exact Hshort.
      now apply truncateUrl_short.
    + rewrite (truncateUrl_long url) by lia.
      rewrite truncateUrl_long.
      * rewrite substring_of_prefix by lia. reflexivity.
      * rewrite append_length, substring_length. cbn [String.length]. lia.
Qed.

Lemma lookup_in {V : Type} (k : string) (v : V) (t : list (string * V)) :
  lookup String.eqb k t = Some v -> In (k, v) t.
Proof.
  induction t as [| [k' v'] t IH]; cbn; intros H; [discriminate |].
  destruct (String.eqb_spec k k') as [-> | _].
  - inversion H; subst. now left.
  - right. now apply IH.
Qed.

Lemma in_firstn {A : Type} (x : A) (n : nat) : forall l,
  In x (firstn n l) -> In x l.
Proof.
  induction n as [| n IH]; intros l H; [contradiction |].
  destruct l as [| y l]; [contradiction |].
  destruct H as [<- | H]; [now left | right; now apply IH].
Qed.

(** The loop over the priority headers keeps at most five headers, all
    of them entries of [headers] with a non-empty value. *)
Lemma add_priority_bounded headers (names : list string) : forall result,
  (length result <= 4)%nat ->
  Forall (fun entry => In entry headers /\ truthy_string (snd entry) = true) result ->
  (length (add_priority headers names result) <= 5)%nat
  /\ Forall (fun entry => In entry headers /\ truthy_string (snd entry) = true)
            (add_priority headers names result).
Proof.
  induction names as [| headerName names IH]; intros result Hlen Hall;
    cbn [add_priority].
  - split; [lia | exact Hall].
  - destruct (lookup String.eqb headerName headers) as [value |] eqn:Hlookup;
      [| now apply IH].
    destruct (truthy_string value) eqn:Htruthy; [| now apply IH].
    assert (Hall' : Forall (fun entry => In entry headers
                                         /\ truthy_string (snd entry) = true)
                           (result ++ [(headerName, value)])).
    { apply Forall_app. split; [exact Hall |].
      constructor; [| constructor]. split; [now apply lookup_in | exact Htruthy]. }
    destruct (Nat.leb_spec 5 (length (result ++ [(headerName, value)]))) as [Hfull | Hroom].
    + split; [| exact Hall']. rewrite length_app in *. cbn in *. lia.
    + apply IH; [| exact Hall']. rewrite length_app in *. cbn in *. lia.
Qed.

(** X16: the timeline shows at most five headers of a step, each of
    them an entry of the step's headers. *)
Theorem getImportantHeaders_at_most_five
  (toLowerCase : string -> string) (headers : list (string * string)) :
  (length (getImportantHeaders toLowerCase headers) <= 5)%nat
  /\ Forall (fun entry => In entry headers)
            (getImportantHeaders toLowerCase headers).
Proof.
  unfold getImportantHeaders.
  destruct (add_priority_bounded headers priorityHeaders []) as [Hlen Hall];
    [cbn; lia | constructor |].
  assert (Hin : Forall (fun entry => In entry headers)
                       (add_priority headers priorityHeaders [])).
  { eapply Forall_impl; [| exact Hall]. intros entry [H _]. exact H. }
  destruct (Nat.ltb_spec (length (add_priority headers priorityHeaders [])) 5)
    as [Hroom | Hfull]; [| now split].
  split.
  - rewrite length_app. pose proof (firstn_le_length
      (5 - length (add_priority headers priorityHeaders []))
      (filter (fun entry => negb (existsb (String.eqb (toLowerCase (fst entry)))
                                         priorityHeaders)) headers)).
    lia.
  - apply Forall_app. split; [exact Hin |].
    apply Forall_forall. intros entry Hentry.
    apply in_firstn in Hentry. apply filter_In in Hentry. tauto.
Qed.

End ChainHelperFacts.

Module PageFacts.

Import Tracer TraceShape Route Page RouteFacts TraceFacts.

Section World.

Variable net : list Request -> Request -> Response + Thrown.
Variable URL_href : string -> string -> option string.
Variable clock : nat -> list Request -> Z.

Local Abbreviation checkUrl := (checkUrl net URL_href clock).
Local Abbreviation POST := (POST net URL_href clock).

(** X17: the route answers with status 200, 400 or 500 only.  An
    answer other than 200 carries an error text and leaves the state as
    it was: no request was issued.  An answer of 200 carries a result,
    and the requests issued before it are still the first of the
    log. *)
Theorem POST_rejects_without_requests (request : Body + Thrown) (s : State) :
  exists resp s',
    POST request s = (Ret resp, s')
    /\ (http_status resp = 200 \/ http_status resp = 400 \/ http_status resp = 500)
    /\ (http_status resp <> 200 ->
        s' = s /\ exists message, payload resp = ErrorPayload message)
    /\ (http_status resp = 200 ->
        exists res issued,
          payload resp = ResultPayload res
          /\ requests s' = (requests s ++ issued)%list).
Proof.
  destruct request as [body | e].
  - destruct (truthy (body_url body)) eqn:Htruthy.
    + destruct (body_url body) as [u |] eqn:Hurl; [| discriminate].
      cbn in Htruthy.
      destruct (POST_traces net URL_href clock body u s Hurl Htruthy)
        as (res & s' & Hrun & Hpost).
      exists (mkNextResponse 200 (ResultPayload res)), s'.
      split; [exact Hpost |]. cbn [http_status payload].
      split; [now left |]. split; [intros H; contradiction |].
      intros _.
      destruct (checkUrl_trace_facts net URL_href clock u (options_of body) s)
        as (res1 & s1 & Hrun1 & Hfacts).
      rewrite Hrun in Hrun1. inversion Hrun1; subst res1 s1.
      destruct (trace_steps _ _ _ _ _ _ _ Hfacts)
        as (l & extra & failed & _ & _ & _ & _ & Hreq & _).
      exists res, (requests_for (mergeOptions defaultOptions (options_of body)) l
                   ++ failed)%list.
      split; [reflexivity | exact Hreq].
    + exists (mkNextResponse 400 (ErrorPayload "URL is required")), s.
      split; [now apply POST_url_required |]. cbn [http_status payload].
      split; [right; now left |]. split.
      * intros _. split; [reflexivity | now eexists].
      * discriminate.
  - exists (mkNextResponse 500 (ErrorPayload (thrown_message e))), s.
    split; [apply POST_throws |]. cbn [http_status payload].
    split; [right; now right |]. split.
    + intros _. split; [reflexivity | now eexists].
    + discriminate.
Qed.

(** The body the page posts has a [url] and no [options]. *)
Lemma read_request_body (url : string) (options : option PageOptions) :
  read_body (request_body url options) = Some (mkBody (Some url) None).
Proof.
  destruct options as [[[ua |] [t |]] |]; reflexivity.
Qed.

(** X18: the body that [handleCheckUrl] posts spreads its options
    beside [url], where the route does not read them: the route finds
    a [url] and no [options], and traces the URL with the default
    options, whatever [userAgent] and [timeout] the page was given. *)
Theorem page_options_do_not_reach_checkUrl
  (url : string) (options : option PageOptions) (s : State) :
  truthy_string url = true ->
  exists body res s',
    read_body (request_body url options) = Some body
    /\ body_options body = None
    /\ checkUrl url noOptions s = (Ret res, s')
    /\ POST (inl body) s = (Ret (mkNextResponse 200 (ResultPayload res)), s').
Proof.
  intros Htruthy.
  destruct (POST_traces net URL_href clock (mkBody (Some url) None) url s
              eq_refl Htruthy) as (res & s' & Hrun & Hpost).
  exists (mkBody (Some url) None), res, s'.
  split; [apply read_request_body |]. split; [reflexivity |].
  split; [exact Hrun | exact Hpost].
Qed.

End World.

End PageFacts.

(* ------------------------------------------------------------------ *)
(** * The properties above, on the concrete worlds *)

Module MoreWitnesses.

Import Tracer TraceShape Route Examples MoreExamples.
Import TracerFacts TraceFacts ViewFacts PageFacts.

Local Abbreviation found_redirects_to := TracerWitnesses.found_redirects_to.

Lemma net_fault_without_response : faults_without_response net_fault.
Proof.
  intros log rq e H u. unfold net_fault in H.
  destruct (String.eqb (req_url rq) urlA); inversion H. reflexivity.
Qed.

Lemma net_circular_without_response : faults_without_response net_circular.
Proof.
  intros log rq e H u. unfold net_circular in H.
  destruct (String.eqb (req_url rq) urlA); discriminate.
Qed.

Lemma chain_ab_follows (net : list Request -> Request -> Response + Thrown)
      (resp : nat -> Response) opts :
  (forall log, net log (request_to opts urlA) = inl (resp O)) ->
  resp O = found urlB ->
  follows_chain net href_absolute opts [] chain_ab resp 1.
Proof.
  intros Hnet Hresp i Hi. destruct i as [| i]; [| lia].
  split; [apply Hnet |]. split.
  - rewrite Hresp. apply found_redirects_to. reflexivity.
  - intros j Hj. destruct j as [| j]; [discriminate | lia].
Qed.

Lemma net_moved_without_response : faults_without_response net_moved.
Proof.
  intros log rq e H u. unfold net_moved in H.
  destruct (String.eqb (req_url rq) urlA); discriminate.
Defined.

(** A is moved to B, which answers 200: the trace has two steps, the
    first for A, and the [Location] of the first resolves to the URL of
    the second, B. *)
Lemma checkUrl_steps_are_linked_witness :
  faults_without_response net_moved
  /\ exists res s' st next,
       checkUrl net_moved href_absolute clock_ticks urlA noOptions state0
       = (Ret res, s')
       /\ steps res = [st; next]
       /\ url st = urlA
       /\ url next = urlB
       /\ href_absolute (location_text (location st)) (url st) = Some (url next).
Proof.
  split; [exact net_moved_without_response |].
  destruct (checkUrl_steps_are_linked net_moved href_absolute clock_ticks
              urlA noOptions state0 net_moved_without_response)
    as (res & s' & Hrun & Hfirst & Hlinked).
  assert (Hsteps : steps res
                   = [step_of_response urlA (found urlB); step_of_response urlB ok]).
  { vm_compute in Hrun. inversion Hrun. reflexivity. }
  exists res, s', (step_of_response urlA (found urlB)), (step_of_response urlB ok).
  split; [exact Hrun |]. split; [exact Hsteps |]. split; [| split].
  - apply Hfirst. rewrite Hsteps. reflexivity.
  - reflexivity.
  - apply (Hlinked O); rewrite Hsteps; reflexivity.
Defined.

Lemma checkUrl_step_urls_are_distinct_witness :
  exists res s',
    checkUrl net_circular href_absolute clock_ticks urlA noOptions state0
    = (Ret res, s')
    /\ NoDup (map url (steps res)).
Proof.
  apply (checkUrl_step_urls_are_distinct net_circular href_absolute clock_ticks
           urlA noOptions state0).
  apply net_circular_without_response.
Defined.

Lemma checkUrl_requests_witness :
  exists res s' failed,
    checkUrl net_fault href_absolute clock_ticks urlA noOptions state0 = (Ret res, s')
    /\ requests s'
       = (requests state0
          ++ map (fun st => request_to (mergeOptions defaultOptions noOptions) (url st))
                 (steps res)
          ++ failed)%list
    /\ (length failed <= 1)%nat
    /\ (error res = None -> failed = [])
    /\ Forall (fun rq =>
                 req_userAgent rq = userAgent (mergeOptions defaultOptions noOptions)
                 /\ req_timeout rq = timeout (mergeOptions defaultOptions noOptions))
              (map (fun st => request_to (mergeOptions defaultOptions noOptions) (url st))
                   (steps res) ++ failed).
Proof.
  apply (checkUrl_requests net_fault href_absolute clock_ticks urlA noOptions state0).
  apply net_fault_without_response.
Defined.

(** A is moved to B, which answers 200: two steps, one redirect. *)
Lemma checkUrl_follows_to_terminal_witness :
  exists res s',
    checkUrl net_moved href_absolute clock_ticks (chain_ab 0) noOptions state0
    = (Ret res, s')
    /\ requests s'
       = (requests state0
          ++ chain_requests (mergeOptions defaultOptions noOptions) chain_ab 2)%list
    /\ steps res = chain_steps chain_ab resp_moved 2
    /\ redirectCount res = Z.of_nat 1
    /\ error res = None
    /\ finalUrl res = chain_ab 1.
Proof.
  apply (checkUrl_follows_to_terminal net_moved href_absolute clock_ticks
           noOptions state0 chain_ab resp_moved 1).
  - reflexivity.
  - reflexivity.
  - vm_compute. reflexivity.
  - apply chain_ab_follows; reflexivity.
  - reflexivity.
  - reflexivity.
Defined.

(** A is redirected to B and B back to A: the cycle is found at B. *)
Lemma checkUrl_detects_any_cycle_witness :
  exists res s',
    checkUrl net_circular href_absolute clock_ticks (chain_ab 0) noOptions state0
    = (Ret res, s')
    /\ requests s'
       = (requests state0
          ++ chain_requests (mergeOptions defaultOptions noOptions) chain_ab 2)%list
    /\ steps res = chain_steps chain_ab resp_circular 2
    /\ redirectCount res = Z.of_nat 2
    /\ error res = Some "Circular redirect detected"
    /\ finalUrl res = chain_ab 1.
Proof.
  apply (checkUrl_detects_any_cycle net_circular href_absolute clock_ticks
           noOptions state0 chain_ab resp_circular 1 0).
  - reflexivity.
  - reflexivity.
  - vm_compute. reflexivity.
  - apply chain_ab_follows; reflexivity.
  - reflexivity.
  - lia.
  - apply found_redirects_to. reflexivity.
Defined.

(** With [maxRedirects] 1 the one redirect is recorded and its target
    is not requested. *)
Lemma checkUrl_stops_at_the_limit_witness :
  exists res s',
    checkUrl net_fresh href_absolute clock_ticks (fresh_chain 0)
             (mkOptions None None None (Some 1)) state0 = (Ret res, s')
    /\ requests s'
       = (requests state0
          ++ chain_requests
               (mergeOptions defaultOptions (mkOptions None None None (Some 1)))
               fresh_chain 1)%list
    /\ steps res = chain_steps fresh_chain (fun i => found (fresh_chain (S i))) 1
    /\ redirectCount res = Z.of_nat 1
    /\ finalUrl res = fresh_chain (1 - 1)
    /\ error res = Some "Maximum number of redirects (1) reached".
Proof.
  apply (checkUrl_stops_at_the_limit net_fresh href_absolute clock_ticks
           (mkOptions None None None (Some 1)) state0 fresh_chain
           (fun i => found (fresh_chain (S i))) 1).
  - reflexivity.
  - reflexivity.
  - reflexivity.
  - apply ExampleFacts.net_fresh_follows_chain.
Defined.

Lemma checkUrl_negative_maxRedirects_witness :
  exists res s',
    checkUrl net_found href_absolute clock_ticks urlA
             (mkOptions None None None (Some (-1))) state0 = (Ret res, s')
    /\ requests s' = requests state0
    /\ steps res = []
    /\ redirectCount res = 0
    /\ finalUrl res = urlA
    /\ error res = Some "Cannot read properties of undefined (reading 'url')".
Proof.
  apply (checkUrl_negative_maxRedirects net_found href_absolute clock_ticks
           urlA (mkOptions None None None (Some (-1))) state0 (-1)).
  - reflexivity.
  - reflexivity.
  - reflexivity.
  - lia.
Defined.

(** The circular chain has the error of the loop, and no loop for the
    score. *)
Lemma seo_score_sees_no_loop_witness :
  exists res s',
    checkUrl net_circular href_absolute clock_ticks urlA noOptions state0
    = (Ret res, s')
    /\ ResultsView.hasLoop res = false
    /\ In (ResultsView.mkDeduction "Redirect Loops" 0 false)
          (ResultsView.getScoreDeductions (Some res)).
Proof.
  apply (seo_score_sees_no_loop net_circular href_absolute clock_ticks
           urlA noOptions state0).
  apply net_circular_without_response.
Defined.

(** The trace of [net_moved] followed one redirect. *)
Lemma banner_counts_the_redirects_witness :
  0 <= redirectCount moved_result
  /\ ResultsView.getBannerType (Some moved_result)
     = (if redirectCount moved_result =? 0 then "success" else "info")
  /\ ResultsView.getBannerMessage (Some moved_result)
     = (if redirectCount moved_result =? 0
        then "Direct connection successful with no redirects"
        else "Successfully followed " ++ string_of_Z (redirectCount moved_result)
             ++ " redirect"
             ++ (if 1 <? redirectCount moved_result then "s" else EmptyString)).
Proof.
  apply (banner_counts_the_redirects net_moved href_absolute clock_ticks
           urlA noOptions state0 moved_result moved_state
           (step_of_response urlB ok)).
  - vm_compute. reflexivity.
  - reflexivity.
  - reflexivity.
  - cbn. lia.
Defined.

(** The page is given a user agent and a timeout; the route traces
    with neither. *)
Lemma page_options_do_not_reach_checkUrl_witness :
  exists body res s',
    Page.read_body
      (Page.request_body urlA (Some (Page.mkPageOptions (Some "Bot") (Some 5000))))
    = Some body
    /\ body_options body = None
    /\ checkUrl net_found href_absolute clock_ticks urlA noOptions state0
       = (Ret res, s')
    /\ POST net_found href_absolute clock_ticks (inl body) state0
       = (Ret (mkNextResponse 200 (ResultPayload res)), s').
Proof.
  apply (page_options_do_not_reach_checkUrl net_found href_absolute clock_ticks
           urlA (Some (Page.mkPageOptions (Some "Bot") (Some 5000))) state0).
  reflexivity.
Defined.

End MoreWitnesses.
